(** * HRSIDT-Calc-Loop: the MEF metric calculator, looped over a list of models

    A shallow embedding of the notebook [HRSIDT-Calc-Loop.ipynb]: the
    observational baseline (cells 3 and 3b), the per-model normalisation and
    the four MEF aggregations (cell 9), and the compilation of the per-model
    datasets along the [models] axis.

    Numbers.  The notebook computes on IEEE binary64 arrays.  In the main
    embedding a value is either not-a-number, one of the two infinities, or
    an exact rational: the special values and their propagation are those
    of IEEE arithmetic, while rounding and overflow of finite values are
    not modelled (finite arithmetic is exact, in [Qc]), and the two zeros
    are not distinguished.  What depends on the rounding of sums is stated
    on binary64 numbers instead, in the module [B64]. *)

From Stdlib Require Import String Ascii.
From Stdlib Require Import List Arith Lia ZArith QArith Qcanon Bool Permutation.
From Stdlib Require Import Lqa Sorted.
From Stdlib Require Floats Uint63.
Import PrimFloat.
Import ListNotations.
Close Scope Qc_scope.
Close Scope Q_scope.

(** ** Values of the arrays *)

Module F64.

Inductive t : Type :=
| NaN
| NInf
| Fin (q : Qc)
| PInf.

Definition qc (n : Z) (d : positive) : Qc := Q2Qc (n # d).

Definition zero : t := Fin (qc 0 1).
Definition one : t := Fin (qc 1 1).

Definition isnan (a : t) : bool :=
  match a with NaN => true | _ => false end.

(** Sign of a finite value, through the comparison with zero. *)
Definition sgn (q : Qc) : comparison := (q ?= qc 0 1)%Qc.

Definition add (a b : t) : t :=
  match a, b with
  | NaN, _ | _, NaN => NaN
  | PInf, NInf | NInf, PInf => NaN
  | PInf, _ | _, PInf => PInf
  | NInf, _ | _, NInf => NInf
  | Fin x, Fin y => Fin (x + y)%Qc
  end.

Definition opp (a : t) : t :=
  match a with
  | NaN => NaN
  | NInf => PInf
  | PInf => NInf
  | Fin x => Fin (- x)%Qc
  end.

Definition sub (a b : t) : t := add a (opp b).

(** An infinity of the sign of [c], or not-a-number at zero. *)
Definition inf_of_sign (c : comparison) : t :=
  match c with Gt => PInf | Lt => NInf | Eq => NaN end.

Definition mul (a b : t) : t :=
  match a, b with
  | NaN, _ | _, NaN => NaN
  | Fin x, Fin y => Fin (x * y)%Qc
  | PInf, PInf | NInf, NInf => PInf
  | PInf, NInf | NInf, PInf => NInf
  | PInf, Fin y | Fin y, PInf => inf_of_sign (sgn y)
  | NInf, Fin y | Fin y, NInf => inf_of_sign (CompOpp (sgn y))
  end.

(** Division as numpy's true divide: [0/0] is not-a-number, a non-zero
    finite value over zero is the infinity of its sign, nothing raises. *)
Definition div (a b : t) : t :=
  match a, b with
  | NaN, _ | _, NaN => NaN
  | Fin x, Fin y =>
      match sgn y with
      | Eq => inf_of_sign (sgn x)
      | _ => Fin (x / y)%Qc
      end
  | Fin _, PInf | Fin _, NInf => zero
  | PInf, Fin y =>
      match sgn y with Lt => NInf | _ => PInf end
  | NInf, Fin y =>
      match sgn y with Lt => PInf | _ => NInf end
  | _, _ => NaN
  end.

(** [a ** 2]. *)
Definition sq (a : t) : t := mul a a.

(** Comparisons: every comparison with not-a-number is false. *)
Definition leb (a b : t) : bool :=
  match a, b with
  | NaN, _ | _, NaN => false
  | NInf, _ => true
  | _, PInf => true
  | Fin x, Fin y => match (x ?= y)%Qc with Gt => false | _ => true end
  | _, _ => false
  end.

Definition ltb (a b : t) : bool :=
  match a, b with
  | NaN, _ | _, NaN => false
  | NInf, NInf | PInf, PInf => false
  | NInf, _ => true
  | _, PInf => true
  | Fin x, Fin y => match (x ?= y)%Qc with Lt => true | _ => false end
  | _, _ => false
  end.

Definition gtb (a b : t) : bool := ltb b a.

Definition eqb (a b : t) : bool :=
  match a, b with
  | NInf, NInf | PInf, PInf => true
  | Fin x, Fin y => Qc_eq_bool x y
  | _, _ => false
  end.

(** Structural equality test, used to evaluate concrete runs
    (unlike [eqb] it identifies not-a-number with itself). *)
Definition same (a b : t) : bool :=
  match a, b with
  | NaN, NaN | NInf, NInf | PInf, PInf => true
  | Fin x, Fin y => Qc_eq_bool x y
  | _, _ => false
  end.

(** [da.where(cond, other=nan)] at one element. *)
Definition where_ (cond : bool) (a : t) : t := if cond then a else NaN.

(** Plain sum of a list. *)
Definition sum (l : list t) : t := fold_right add zero l.

(** [nansum]: not-a-number entries are skipped; an empty or entirely
    not-a-number list sums to zero (xarray's [sum] with its default
    [skipna] on floating-point data and no [min_count]). *)
Definition nansum (l : list t) : t :=
  sum (filter (fun a => negb (isnan a)) l).

(** [count]: the number of entries that are not not-a-number. *)
Definition count (l : list t) : nat :=
  length (filter (fun a => negb (isnan a)) l).

Definition of_nat (n : nat) : t := Fin (qc (Z.of_nat n) 1).

(** [nanmean]: the sum of the valid entries over their number; with no
    valid entry this is [0/0], not-a-number. *)
Definition nanmean (l : list t) : t := div (nansum l) (of_nat (count l)).

(** The values a sum of squares can take: a finite value that is not
    negative, or plus infinity. *)
Definition nonneg (a : t) : Prop :=
  match a with
  | Fin q => (qc 0 1 <= q)%Qc
  | PInf => True
  | _ => False
  end.

End F64.

Definition f64 : Type := F64.t.

(** ** Errors

    The notebook has no handler: an exception of Python or of a library
    aborts the run. *)

Inductive exn : Type :=
| KeyError (key : string)
| IndexError
| ValueError (msg : string).

Inductive result (A : Type) : Type :=
| Ok (a : A)
| Error (e : exn).

Arguments Ok {A} a.
Arguments Error {A} e.

Definition bind {A B : Type} (c : result A) (k : A -> result B) : result B :=
  match c with
  | Ok a => k a
  | Error e => Error e
  end.

Notation "x <- c ;; k" := (bind c (fun x => k))
  (at level 61, c at next level, right associativity).

(** [l[i]] on a Python list. *)
Definition index {A : Type} (l : list A) (i : nat) : result A :=
  match nth_error l i with
  | Some a => Ok a
  | None => Error IndexError
  end.

(** [d[key]] on a Python dict, kept as the list of its items in insertion
    order. *)
Fixpoint getitem {A : Type} (d : list (string * A)) (key : string) : result A :=
  match d with
  | [] => Error (KeyError key)
  | (k, a) :: d' => if String.eqb k key then Ok a else getitem d' key
  end.

(** [list(d.keys())]. *)
Definition keys {A : Type} (d : list (string * A)) : list string := map fst d.

(** [s.split(sep)] for a one-character separator: the pieces between the
    separators, empty pieces included. *)
Fixpoint split (sep : ascii) (s : string) : list string :=
  match s with
  | EmptyString => [EmptyString]
  | String c s' =>
      if Ascii.eqb c sep then EmptyString :: split sep s'
      else match split sep s' with
           | [] => [String c EmptyString]
           | p :: ps => String c p :: ps
           end
  end.

(** ** Time labels, fields and series *)

(** A monthly time label. *)
Record date : Type := mkdate { year : nat; month : nat }.

Definition date_leb (a b : date) : bool :=
  (year a <? year b) || ((year a =? year b) && (month a <=? month b)).

(** The fixed window of the notebook, ['1978-12'] to ['2014-11']. *)
Definition window_lo : date := mkdate 1978 12.
Definition window_hi : date := mkdate 2014 11.

(** A field on a grid, indexed by [(y, x)]. *)
Definition Field : Type := nat -> nat -> f64.

(** An array of dimensions (time, y, x) with its time coordinate: the list
    of its time slices, each under its label. *)
Definition Series : Type := list (date * Field).

(** [.sel(time=slice(lo, hi))] on a monotonic monthly index: the slices
    whose label lies in the closed window.  (On an index that is not
    sorted [.sel] raises [KeyError]; the series of the catalogue and of the
    observations are in the order of time, and that case is not
    modelled.) *)
Definition sel_slice (lo hi : date) (s : Series) : Series :=
  filter (fun p => date_leb lo (fst p) && date_leb (fst p) hi) s.

(** The time series of one cell. *)
Definition cell (s : Series) (y x : nat) : list f64 :=
  map (fun p => snd p y x) s.

(** All the values of a field of shape [(ny, nx)]. *)
Definition values (ny nx : nat) (f : Field) : list f64 :=
  flat_map (fun y => map (fun x => f y x) (seq 0 nx)) (seq 0 ny).

(** Element-wise operation on every slice. *)
Definition map_series (g : f64 -> f64) (s : Series) : Series :=
  map (fun p => (fst p, fun y x => g (snd p y x))) s.

(** Element-wise operation of a series with a field that has no time
    dimension (broadcast along time). *)
Definition broadcast (g : f64 -> f64 -> f64) (s : Series) (f : Field) : Series :=
  map (fun p => (fst p, fun y x => g (snd p y x) (f y x))) s.

(** Element-wise operation of two series that carry the same time index:
    the result keeps the labels of the first. *)
Definition zip_series (g : f64 -> f64 -> f64) (a b : Series) : Series :=
  map (fun pq => (fst (fst pq), fun y x => g (snd (fst pq) y x) (snd (snd pq) y x)))
      (combine a b).

(** [.sum(dim='tdim')]. *)
Definition sum_tdim (s : Series) : Field :=
  fun y x => F64.nansum (cell s y x).

(** [.mean(dim='tdim')]. *)
Definition mean_tdim (s : Series) : Field :=
  fun y x => F64.nanmean (cell s y x).

(** [.sum(dim=['x','y'])]: one value for each time step. *)
Definition sum_xy (ny nx : nat) (s : Series) : list (date * f64) :=
  map (fun p => (fst p, F64.nansum (values ny nx (snd p)))) s.

(** ** Grouping along time

    [da.groupby('time.month').sum(dim='tdim')] and the same by season: one
    group for each distinct label present, the labels in sorted order, each
    group summed along time. *)

Section GroupBy.

Context {K : Type} (K_eqb : K -> K -> bool) (K_leb : K -> K -> bool).
Variable key : date -> K.

Fixpoint insert_sorted (k : K) (l : list K) : list K :=
  match l with
  | [] => [k]
  | h :: t => if K_leb k h then k :: l else h :: insert_sorted k t
  end.

Definition sort (l : list K) : list K := fold_right insert_sorted [] l.

Fixpoint dedup (l : list K) : list K :=
  match l with
  | [] => []
  | h :: t => if existsb (K_eqb h) t then dedup t else h :: dedup t
  end.

(** The sorted distinct labels. *)
Definition unique (l : list K) : list K := sort (dedup l).

Definition labels (s : Series) : list K := map (fun p => key (fst p)) s.

(** The slices of one group. *)
Definition group (k : K) (s : Series) : Series :=
  filter (fun p => K_eqb (key (fst p)) k) s.

Definition groupby_sum (s : Series) : list (K * Field) :=
  map (fun k => (k, sum_tdim (group k s))) (unique (labels s)).

Fixpoint lookup (k : K) (l : list (K * Field)) : option Field :=
  match l with
  | [] => None
  | (k', f) :: l' => if K_eqb k' k then Some f else lookup k l'
  end.

(** Element-wise operation of two grouped arrays, aligned on the group
    label: the labels present in both. *)
Definition zip_groups (g : f64 -> f64 -> f64) (a b : list (K * Field))
  : list (K * Field) :=
  flat_map (fun ka =>
              match lookup (fst ka) b with
              | Some fb => [(fst ka, fun y x => g (snd ka y x) (fb y x))]
              | None => []
              end) a.

End GroupBy.

(** [time.month]. *)
Definition by_month (d : date) : nat := month d.

(** [time.season]: xarray's [seasons[(month // 3) % 4]]. *)
Definition by_season (d : date) : string :=
  nth ((month d / 3) mod 4) ["DJF"; "MAM"; "JJA"; "SON"]%string "nan"%string.

(** ** The metric (cell 9, the four aggregations) *)

(** [1 - (MEF_num/MEF_den)] at one element. *)
Definition mef (num den : f64) : f64 := F64.sub F64.one (F64.div num den).

(** [(a - b) ** 2] at one element. *)
Definition sqdiff (a b : f64) : f64 := F64.sq (F64.sub a b).

(** [(obs_da-model_da) ** 2]. *)
Definition MEF_num (obs_da model_da : Series) : Series :=
  zip_series sqdiff obs_da model_da.

(** [(obs_da-o_mean) ** 2]. *)
Definition MEF_den (obs_da : Series) (o_mean : Field) : Series :=
  broadcast sqdiff obs_da o_mean.

(** MEF - ANNUAL *)
Definition MEF_a (obs_da model_da : Series) (o_mean : Field) : Field :=
  let num := sum_tdim (MEF_num obs_da model_da) in
  let den := sum_tdim (MEF_den obs_da o_mean) in
  fun y x => mef (num y x) (den y x).

(** MEF - MONTHLY *)
Definition MEF_m (obs_da model_da : Series) (o_mean : Field)
  : list (nat * Field) :=
  let num := groupby_sum Nat.eqb Nat.leb by_month (MEF_num obs_da model_da) in
  let den := groupby_sum Nat.eqb Nat.leb by_month (MEF_den obs_da o_mean) in
  zip_groups Nat.eqb mef num den.

(** MEF - SEASONAL *)
Definition MEF_s (obs_da model_da : Series) (o_mean : Field)
  : list (string * Field) :=
  let num := groupby_sum String.eqb String.leb by_season (MEF_num obs_da model_da) in
  let den := groupby_sum String.eqb String.leb by_season (MEF_den obs_da o_mean) in
  zip_groups String.eqb mef num den.

(** MEF - BINNED: both sums have the time index of the observations.  The
    numerator is summed over the [(ny, nx)] cells of [obs_da-model_da], the
    cells that the two arrays have in common; the denominator is summed
    over the [(oy, ox)] cells of [obs_da], in which the model has no part. *)
Definition MEF_b (ny nx oy ox : nat) (obs_da model_da : Series) (o_mean : Field)
  : list (date * f64) :=
  let num := sum_xy ny nx (MEF_num obs_da model_da) in
  let den := sum_xy oy ox (MEF_den obs_da o_mean) in
  map (fun nd => (fst (fst nd), mef (snd (fst nd)) (snd (snd nd))))
      (combine num den).

(** The value of a per-time-step array at step [i]. *)
Definition at_step (l : list (date * f64)) (i : nat) : option f64 :=
  option_map snd (nth_error l i).

(** ** The observational baseline (cells 3 and 3b) *)

(** The variations of cell 3b; [DEF] leaves every line commented out. *)
Inductive variation : Type := DEF | L15 | ZERO | I015 | I1580 | I80100.

Definition dec (n : Z) (d : positive) : f64 := F64.Fin (F64.qc n d).

Definition variation_cond (v : variation) (a : f64) : bool :=
  match v with
  | DEF => true
  | L15 => F64.gtb a (dec 15 100)
  | ZERO => F64.eqb a (dec 0 1)
  | I015 => F64.gtb a (dec 0 1) && F64.leb a (dec 15 100)
  | I1580 => F64.gtb a (dec 15 100) && F64.leb a (dec 8 10)
  | I80100 => F64.gtb a (dec 80 100) && F64.leb a (dec 1 1)
  end.

(** The line of cell 3b that the variation uncomments. *)
Definition apply_variation (v : variation) (obs_da : Series) : Series :=
  match v with
  | DEF => obs_da
  | _ => map_series (fun a => F64.where_ (variation_cond v a) a) obs_da
  end.

(** [obs_da.where(obs_da>0).count('tdim')]. *)
Definition count (obs_da : Series) : nat -> nat -> nat :=
  fun y x =>
    F64.count (cell (map_series (fun a => F64.where_ (F64.gtb a F64.zero) a) obs_da) y x).

(** [xr.where(count <= 20, float('nan'), 1)]. *)
Definition mincount (cnt : nat -> nat -> nat) : Field :=
  fun y x => if cnt y x <=? 20 then F64.NaN else F64.one.

(** [obs_da.where(obs_da <= 2.51, other=float('nan'))]. *)
Definition flag_obs (obs_ds : Series) : Series :=
  map_series (fun a => F64.where_ (F64.leb a (dec 251 100)) a) obs_ds.

(** Cell 3 up to the masking by [mincount]. *)
Definition quality_control (obs_ds : Series) : Series :=
  let obs_da := flag_obs obs_ds in
  broadcast F64.mul obs_da (mincount (count obs_da)).

Record Baseline : Type := mkBaseline {
  obs_time : list date;   (* obs_ds['time'] *)
  obs_da : Series;
  o_mean : Field
}.

(** Cells 3 and 3b in their order of execution: the mean of cell 3 is taken
    before the variation of cell 3b is applied to [obs_da], and is not
    taken again. *)
Definition observation_baseline (v : variation) (raw : Series) : Baseline :=
  let obs_ds := sel_slice window_lo window_hi raw in
  let obs_da := quality_control obs_ds in
  let o_mean := mean_tdim obs_da in
  let obs_da := apply_variation v obs_da in
  {| obs_time := map fst obs_ds; obs_da := obs_da; o_mean := o_mean |}.

(** ** Datasets and the sizes of their dimensions

    What the notebook relies on when it re-labels the time axis of the
    regridded model ([assign_coords], [swap_dims]): a dataset is a set of
    variables, each along named dimensions, and a dataset in which one
    dimension name has two lengths cannot be built: xarray computes the
    sizes of the dimensions of every dataset it returns and raises
    [ValueError] on conflicting sizes. *)

Module XR.

(** The dimensions of a variable, by name, with their lengths. *)
Definition dims : Type := list (string * nat).

Record Dataset : Type := mkDataset {
  variables : list (string * dims);
  siconc : list Field;      (* the slices of 'siconc' along its first dimension *)
  time : list date          (* the values of the variable 'time' *)
}.

Fixpoint add_dim (d : string) (n : nat) (acc : dims) : result dims :=
  match acc with
  | [] => Ok [(d, n)]
  | (d', n') :: acc' =>
      if String.eqb d' d then
        if n' =? n then Ok acc
        else Error (ValueError "conflicting sizes for dimension")
      else
        r <- add_dim d n acc' ;; Ok ((d', n') :: r)
  end.

Fixpoint add_dims (vd : dims) (acc : dims) : result dims :=
  match vd with
  | [] => Ok acc
  | (d, n) :: vd' => acc' <- add_dim d n acc ;; add_dims vd' acc'
  end.

Fixpoint calculate_dimensions_from (vars : list (string * dims)) (acc : dims)
  : result dims :=
  match vars with
  | [] => Ok acc
  | (_, vd) :: vars' =>
      acc' <- add_dims vd acc ;; calculate_dimensions_from vars' acc'
  end.

Definition calculate_dimensions (vars : list (string * dims)) : result dims :=
  calculate_dimensions_from vars [].

Fixpoint get_var (name : string) (vars : list (string * dims)) : option dims :=
  match vars with
  | [] => None
  | (n, vd) :: vars' => if String.eqb n name then Some vd else get_var name vars'
  end.

Fixpoint set_var (name : string) (vd : dims) (vars : list (string * dims))
  : list (string * dims) :=
  match vars with
  | [] => [(name, vd)]
  | (n, vd') :: vars' =>
      if String.eqb n name then (name, vd) :: vars'
      else (n, vd') :: set_var name vd vars'
  end.

(** [xr.Dataset({"siconc": sic_bil})] for a regridded array of dimensions
    (time, y, x) on a grid of shape [(ny, nx)], with its time coordinate. *)
Definition of_siconc (ny nx : nat) (sic_bil : Series) : Dataset :=
  let n := length sic_bil in
  {| variables := [("siconc", [("time", n); ("y", ny); ("x", nx)]);
                   ("time", [("time", n)])]%string;
     siconc := map snd sic_bil;
     time := map fst sic_bil |}.

(** [ds.assign_coords(time=obs_ds['time'])]: the coordinate given lies along
    [tdim] and brings the index of [tdim] with it; it replaces the variable
    [time] of the dataset. *)
Definition assign_coords_time (ds : Dataset) (obs_ds_time : list date)
  : result Dataset :=
  let n := length obs_ds_time in
  let vars := set_var "tdim" [("tdim"%string, n)]
                (set_var "time" [("tdim"%string, n)] (variables ds)) in
  _ <- calculate_dimensions vars ;;
  Ok {| variables := vars; siconc := siconc ds; time := obs_ds_time |}.

Definition rename_dim (old new : string) (vd : dims) : dims :=
  map (fun dn => (if String.eqb (fst dn) old then new else fst dn, snd dn)) vd.

(** [ds.swap_dims({old: new})]. *)
Definition swap_dims (ds : Dataset) (old new : string) : result Dataset :=
  sizes <- calculate_dimensions (variables ds) ;;
  if negb (existsb (fun dn => String.eqb (fst dn) old) sizes) then
    Error (ValueError "cannot swap from dimension: not an existing dimension")
  else
    let along_old :=
      match get_var new (variables ds) with
      | Some [(d, _)] => String.eqb d old
      | Some _ => false
      | None => true
      end in
    if negb along_old then
      Error (ValueError "replacement dimension is not a 1D variable along the old dimension")
    else
      let vars := map (fun v => (fst v, rename_dim old new (snd v))) (variables ds) in
      _ <- calculate_dimensions vars ;;
      Ok {| variables := vars; siconc := siconc ds; time := time ds |}.

(** The variables of the model dataset once its time axis is re-labelled. *)
Definition relabelled (n ny nx m : nat) : list (string * dims) :=
  [("siconc", [("tdim", n); ("y", ny); ("x", nx)]);
   ("time", [("tdim", m)]);
   ("tdim", [("tdim", m)])]%string.

End XR.

(** ** Grids, the reference dataset, the models *)

Record Grid : Type := mkGrid {
  g_ny : nat;
  g_nx : nat;
  g_lon : nat -> nat -> Qc;
  g_lat : nat -> nat -> Qc
}.

(** The ancillary file: the reference grid and its land mask. *)
Record RefDataset : Type := mkRef {
  ref_grid : Grid;
  landmask : Field
}.

(** A model as the catalogue delivers it: [siconc] in percent on the native
    grid of the model, with the time labels of the model. *)
Record ModelDataset : Type := mkModel {
  model_grid : Grid;
  model_siconc : Series
}.

(** [xe.Regridder(ds_in, ds_out, method, periodic=...)]: the regridder is
    built from the source grid and the target grid. *)
Record Regridder : Type := mkRegridder {
  grid_in : Grid;
  grid_out : Grid;
  method : string;
  periodic : bool
}.

(** [mask = xr.where(ref_ds.landmask > 0, float('nan'), 1)]. *)
Definition mask_of (ref_ds : RefDataset) : Field :=
  fun y x => if F64.gtb (landmask ref_ds y x) F64.zero then F64.NaN else F64.one.

(** The four metrics of one model and its name. *)
Record MetricSet : Type := mkMetricSet {
  ms_MEF_a : Field;
  ms_MEF_s : list (string * Field);
  ms_MEF_m : list (nat * Field);
  ms_MEF_b : list (date * f64);
  model_name : string
}.

(** [xr.concat(MEF, dim='models', coords='minimal')]: the datasets stacked
    along the new axis in the order of the list; an empty list is refused. *)
Definition concat (MEF : list MetricSet) : result (list MetricSet) :=
  match MEF with
  | [] => Error (ValueError "must supply at least one object to concatenate")
  | _ => Ok MEF
  end.

(** A [for] loop over a list of indices, threading the state and stopping at
    the first exception. *)
Fixpoint for_range {S : Type} (body : nat -> S -> result S) (js : list nat) (s : S)
  : result S :=
  match js with
  | [] => Ok s
  | j :: js' => s' <- body j s ;; for_range body js' s'
  end.

(** Replace the element at position [i]. *)
Fixpoint setitem {A : Type} (l : list A) (i : nat) (a : A) : list A :=
  match l, i with
  | [], _ => []
  | _ :: l', O => a :: l'
  | h :: l', S i' => h :: setitem l' i' a
  end.

(** The overlay of the land mask:
    [for i in range(0,tct,1): siconc[i,:,:] = siconc[i,:,:]*mask]. *)
Definition overlay_step (mask : Field) (i : nat) (sic : list Field) : list Field :=
  match nth_error sic i with
  | Some f => setitem sic i (fun y x => F64.mul (f y x) (mask y x))
  | None => sic
  end.

Definition overlay_mask (mask : Field) (ds : XR.Dataset) : XR.Dataset :=
  let tct := length (XR.time ds) in
  {| XR.variables := XR.variables ds;
     XR.siconc := fold_left (fun sic i => overlay_step mask i sic) (seq 0 tct) (XR.siconc ds);
     XR.time := XR.time ds |}.

(** ** The loop over the models (cell 9) *)

Section Loop.

(** The two collaborators: clisops' [subset_bbox] and the application of an
    xESMF regridder to one time slice. *)
Variable subset_bbox : RefDataset -> Z * Z -> Z * Z -> Grid.
Variable regrid : Regridder -> Field -> Field.

Definition lon_bnds : Z * Z := (-180, 180)%Z.
Definition lat_bnds : Z * Z := (-80, -50)%Z.

(** TARGET - REFERENCE: the target grid and the regridder of one iteration. *)
Definition target (ref_ds : RefDataset) : Grid :=
  subset_bbox ref_ds lon_bnds lat_bnds.

Definition regridder (model_ds : ModelDataset) (ds_tgt : Grid) : Regridder :=
  {| grid_in := model_grid model_ds; grid_out := ds_tgt;
     method := "bilinear"; periodic := true |}.

(** From the import of the model to [model_da], given the target grid: the
    slice of the window, the flagging above 100, the regridding of every
    time slice, the overlay of the mask, the re-labelling of the time axis
    and the scaling to 0-1.  ([squeeze] drops dimensions of length one,
    which this representation of [siconc] does not have.)  The only
    failure modelled is that of the re-labelling; the collaborators are
    taken to succeed, so that a result [Ok] says what the code computes
    when it completes, and not that it completes. *)
Definition normalise_on (ds_tgt : Grid) (mask : Field) (obs_ds_time : list date)
  (model_ds : ModelDataset) : result Series :=
  let sic := sel_slice window_lo window_hi (model_siconc model_ds) in
  let sic := map_series (fun a => F64.where_ (F64.leb a (dec 100 1)) a) sic in
  let reg_bil := regridder model_ds ds_tgt in
  let sic_bil := map (fun p => (fst p, regrid reg_bil (snd p))) sic in
  let model_rp := XR.of_siconc (g_ny ds_tgt) (g_nx ds_tgt) sic_bil in
  let model_rp := overlay_mask mask model_rp in
  model_ds <- XR.assign_coords_time model_rp obs_ds_time ;;
  model_ds <- XR.swap_dims model_ds "tdim" "time" ;;
  model_ds <- XR.swap_dims model_ds "time" "tdim" ;;
  Ok (map_series (fun a => F64.div a (dec 100 1))
        (combine (XR.time model_ds) (XR.siconc model_ds))).

(** The slices of a model once regridded and masked, before the division by
    100: what the normalisation computes when it succeeds. *)
Definition masked_slices (ds_tgt : Grid) (mask : Field) (model_ds : ModelDataset)
  : list Field :=
  map (fun (f : Field) => (fun y x => F64.mul (f y x) (mask y x)) : Field)
      (map (fun p => regrid (regridder model_ds ds_tgt) (snd p))
           (map_series (fun a => F64.where_ (F64.leb a (dec 100 1)) a)
                       (sel_slice window_lo window_hi (model_siconc model_ds)))).

(** The four metrics of a normalised model.  The model is on the target
    grid and the observations are on their own grid, of shape [obs_shape]:
    [obs_da-model_da] has the cells that are in both, and the denominator
    of the binned metric is summed over the grid of the observations. *)
Definition metrics (ds_tgt : Grid) (obs_shape : nat * nat) (base : Baseline)
  (model_da : Series) (model : string) : MetricSet :=
  {| ms_MEF_a := MEF_a (obs_da base) model_da (o_mean base);
     ms_MEF_s := MEF_s (obs_da base) model_da (o_mean base);
     ms_MEF_m := MEF_m (obs_da base) model_da (o_mean base);
     ms_MEF_b := MEF_b (Nat.min (g_ny ds_tgt) (fst obs_shape))
                       (Nat.min (g_nx ds_tgt) (snd obs_shape))
                       (fst obs_shape) (snd obs_shape)
                       (obs_da base) model_da (o_mean base);
     model_name := model |}.

(** What the notebook holds when the loop starts. *)
Record Globals : Type := mkGlobals {
  ref_ds : RefDataset;
  obs_shape : nat * nat;   (* the sizes of y and x in obs_da *)
  base : Baseline;
  ddict : list (string * ModelDataset)
}.

Definition mlist (g : Globals) : list string := keys (ddict g).
Definition lct (g : Globals) : nat := length (mlist g).

(** The first loop: the name of each model out of its catalogue key. *)
Definition source_id_body (g : Globals) (k : nat) (source_id : list string)
  : result (list string) :=
  key <- index (mlist g) k ;;
  let name := split "." key in
  mod_id <- index name 2 ;;
  Ok (source_id ++ [mod_id]).

(** The body of the second loop, as written: the target grid and the
    regridder are built in every iteration. *)
Definition MEF_body (g : Globals) (source_id : list string) (j : nat)
  (MEF : list MetricSet) : result (list MetricSet) :=
  key <- index (mlist g) j ;;
  model_ds <- getitem (ddict g) key ;;
  model <- index source_id j ;;
  let ds_tgt := target (ref_ds g) in
  model_da <- normalise_on ds_tgt (mask_of (ref_ds g)) (obs_time (base g)) model_ds ;;
  let dataset := metrics ds_tgt (obs_shape g) (base g) model_da model in
  Ok (MEF ++ [dataset]).

Definition run (g : Globals) : result (list MetricSet) :=
  source_id <- for_range (source_id_body g) (seq 0 (lct g)) [] ;;
  MEF <- for_range (MEF_body g source_id) (seq 0 (lct g)) [] ;;
  concat MEF.

(** The dataset [ms] is the one the loop makes of the model under [key]. *)
Definition produced (g : Globals) (key : string) (ms : MetricSet) : Prop :=
  exists model_ds model_da name,
    getitem (ddict g) key = Ok model_ds
    /\ nth_error (split "." key) 2 = Some name
    /\ normalise_on (target (ref_ds g)) (mask_of (ref_ds g)) (obs_time (base g))
                    model_ds = Ok model_da
    /\ ms = metrics (target (ref_ds g)) (obs_shape g) (base g) model_da name.

(** The same loop with the target grid built once, before it. *)
Definition MEF_body_hoisted (g : Globals) (ds_tgt : Grid) (source_id : list string)
  (j : nat) (MEF : list MetricSet) : result (list MetricSet) :=
  key <- index (mlist g) j ;;
  model_ds <- getitem (ddict g) key ;;
  model <- index source_id j ;;
  model_da <- normalise_on ds_tgt (mask_of (ref_ds g)) (obs_time (base g)) model_ds ;;
  let dataset := metrics ds_tgt (obs_shape g) (base g) model_da model in
  Ok (MEF ++ [dataset]).

End Loop.

(** The whole notebook, from the ancillary file, the observations with the
    sizes of their [y] and [x], the variation chosen in cell 3b and the
    dictionary of the models. *)
Definition notebook (subset_bbox : RefDataset -> Z * Z -> Z * Z -> Grid)
  (regrid : Regridder -> Field -> Field) (v : variation) (ref : RefDataset)
  (raw_obs : Series) (raw_shape : nat * nat)
  (models : list (string * ModelDataset))
  : result (list MetricSet) :=
  run subset_bbox regrid
      {| ref_ds := ref; obs_shape := raw_shape;
         base := observation_baseline v raw_obs; ddict := models |}.

(** ** Concrete inputs *)

Definition next_month (d : date) : date :=
  if month d =? 12 then mkdate (S (year d)) 1 else mkdate (year d) (S (month d)).

(** [n] consecutive months from [d]. *)
Fixpoint months_from (d : date) (n : nat) : list date :=
  match n with
  | O => []
  | S n' => d :: months_from (next_month d) n'
  end.

(** The 432 labels of a complete monthly series over the fixed window. *)
Definition fixed_window : list date := months_from window_lo 432.

(** A series on a single-cell grid, from its labels and its values. *)
Definition series_of (ds : list date) (vs : list f64) : Series :=
  map (fun dv => (fst dv, fun _ _ => snd dv)) (combine ds vs).

(** The scenario of the specification: four months on a single cell. *)
Definition obs4 : Series :=
  series_of (months_from window_lo 4) [dec 1 10; dec 2 10; dec 3 10; dec 4 10].

(** A complete series over the window whose value depends on the month. *)
Definition obs432 : Series :=
  map (fun d => (d, fun _ _ => dec (Z.of_nat (month d)) 20)) fixed_window.
Definition model432 : Series :=
  map (fun d => (d, fun _ _ => dec (Z.of_nat (year d) - 1970) 50)) fixed_window.

(** Two years of observations on a single cell: 0.5 and 0.9 in turn. *)
Definition alternating (n : nat) (a b : f64) : list f64 :=
  flat_map (fun _ => [a; b]) (seq 0 n).
Definition obs24 : Series :=
  series_of (months_from window_lo 24) (alternating 12 (dec 5 10) (dec 9 10)).

(** Two years of a constant observation, 0.5. *)
Definition obs24_const : Series :=
  series_of (months_from window_lo 24) (repeat (dec 5 10) 24).

(** A normalised model on the same two years: 0.4 everywhere. *)
Definition model24 : Series :=
  series_of (months_from window_lo 24) (repeat (dec 4 10) 24).

(** Two years with ice in twenty months only. *)
Definition obs24_sparse : Series :=
  series_of (months_from window_lo 24)
            (repeat (dec 5 10) 10 ++ repeat (dec 9 10) 10 ++ repeat (dec 0 1) 4).

Definition grid_of (ny nx : nat) : Grid :=
  {| g_ny := ny; g_nx := nx;
     g_lon := fun _ x => F64.qc (Z.of_nat x) 1;
     g_lat := fun y _ => F64.qc (- 60 - Z.of_nat y) 1 |}.

(** A single-cell reference grid, over ocean and over land. *)
Definition ref_ocean : RefDataset :=
  {| ref_grid := grid_of 1 1; landmask := fun _ _ => dec 0 1 |}.

(** Models in percent: 40 everywhere over two years, on a single-cell grid
    and on a grid of two by two cells; and one that stops after 23 months. *)
Definition model_a : ModelDataset :=
  {| model_grid := grid_of 1 1;
     model_siconc := series_of (months_from window_lo 24) (repeat (dec 40 1) 24) |}.
Definition model_b : ModelDataset :=
  {| model_grid := grid_of 2 2;
     model_siconc := series_of (months_from window_lo 24) (repeat (dec 60 1) 24) |}.
Definition model_short : ModelDataset :=
  {| model_grid := grid_of 1 1;
     model_siconc := series_of (months_from window_lo 23) (repeat (dec 40 1) 23) |}.

(** Stand-ins for the collaborators in concrete runs: a bounding box that
    keeps the whole reference grid, and a regridder that takes the source
    cell at the scaled position. *)
Definition whole_grid (ref : RefDataset) (_ _ : Z * Z) : Grid := ref_grid ref.
Definition nearest (r : Regridder) (f : Field) : Field :=
  fun y x => f (y * g_ny (grid_in r) / g_ny (grid_out r))
               (x * g_nx (grid_in r) / g_nx (grid_out r)).

Definition two_models : list (string * ModelDataset) :=
  [("HighResMIP.CMCC.CMCC-CM2-VHR4.hist-1950.SImon.gn"%string, model_b);
   ("HighResMIP.CMCC.CMCC-CM2-HR4.hist-1950.SImon.gn"%string, model_a)].

(** The notebook at the start of the loop on these two models. *)
Definition globals2 : Globals :=
  {| ref_ds := ref_ocean; obs_shape := (1, 1);
     base := observation_baseline DEF obs24; ddict := two_models |}.

(** Three models, the second of which stops one month early. *)
Definition three_models : list (string * ModelDataset) :=
  [("HighResMIP.CMCC.CMCC-CM2-VHR4.hist-1950.SImon.gn"%string, model_b);
   ("HighResMIP.MOHC.HadGEM3-GC31-LL.hist-1950.SImon.gn"%string, model_short);
   ("HighResMIP.CMCC.CMCC-CM2-HR4.hist-1950.SImon.gn"%string, model_a)].
Definition globals_short : Globals :=
  {| ref_ds := ref_ocean; obs_shape := (1, 1);
     base := observation_baseline DEF obs24; ddict := three_models |}.


Definition is_ok {A : Type} (r : result A) : bool :=
  match r with Ok _ => true | Error _ => false end.

(** The annual value of the first model of a run at one cell, when the run
    completes. *)
Definition first_annual (r : result (list MetricSet)) (y x : nat) : option f64 :=
  match r with
  | Ok (ms :: _) => Some (ms_MEF_a ms y x)
  | _ => None
  end.

Definition same_opt (a : option f64) (b : f64) : bool :=
  match a with
  | Some a' => F64.same a' b
  | None => false
  end.

(** ** Further definitions *)

(** [sep.join(parts)]: how the catalogue makes the key of a model out of
    its facets,
    ['activity_id.institution_id.source_id.experiment_id.table_id.grid_label']. *)
Fixpoint join (sep : ascii) (parts : list string) : string :=
  match parts with
  | [] => EmptyString
  | [p] => p
  | p :: ps => (p ++ String sep (join sep ps))%string
  end.

(** Whether the character occurs in the string. *)
Fixpoint contains (sep : ascii) (s : string) : bool :=
  match s with
  | EmptyString => false
  | String c s' => Ascii.eqb c sep || contains sep s'
  end.

(** The variations that isolate a band (all but the one that excludes). *)
Definition isolating : list variation := [ZERO; I015; I1580; I80100].

(** The rank of a month in the calendar, and the labels that are months. *)
Definition month_index (d : date) : nat := year d * 12 + month d.
Definition valid_date (d : date) : Prop := 1 <= month d <= 12.

(** A value that is not above one: not-a-number, minus infinity, or a
    finite value at most one. *)
Definition at_most_one (a : f64) : Prop :=
  a = F64.NaN \/ a = F64.NInf
  \/ exists q, a = F64.Fin q /\ (q <= F64.qc 1 1)%Qc.

(** A model from January 1950 to December 2014, as the catalogue has them,
    and observations from November 1978 to December 2014. *)
Definition model_1950 : ModelDataset :=
  {| model_grid := grid_of 1 1;
     model_siconc := map (fun d => (d, fun _ _ => dec (Z.of_nat (month d)) 1))
                         (months_from (mkdate 1950 1) 780) |}.
Definition obs_1978 : Series :=
  map (fun d => (d, fun _ _ => dec (Z.of_nat (month d)) 20))
      (months_from (mkdate 1978 11) 434).

(** A regridded model of two time steps on a grid of one row and two
    cells, and a land mask that has land in the second cell. *)
Definition two_steps : XR.Dataset :=
  XR.of_siconc 1 2
    [(mkdate 1978 12, fun _ x => dec (Z.of_nat x + 10) 1);
     (mkdate 1979 1, fun _ x => dec (Z.of_nat x + 20) 1)].
Definition ref_coast : RefDataset :=
  {| ref_grid := grid_of 1 2;
     landmask := fun _ x => if x =? 1 then dec 1 1 else dec 0 1 |}.

(** A model that has the mean of [obs24], 0.7, in every month. *)
Definition model24_mean : Series :=
  series_of (months_from window_lo 24) (repeat (dec 7 10) 24).

(** A key without a third component. *)
Definition bad_key_models : list (string * ModelDataset) :=
  [("HighResMIP.CMCC.CMCC-CM2-VHR4.hist-1950.SImon.gn"%string, model_b);
   ("CMCC-CM2-HR4.gn"%string, model_a)].
Definition globals_bad_key : Globals :=
  {| ref_ds := ref_ocean; obs_shape := (1, 1);
     base := observation_baseline DEF obs24; ddict := bad_key_models |}.

(** The names along the [models] axis of a run, and the binned value of its
    first model at one time step. *)
Definition names_of (r : result (list MetricSet)) : option (list string) :=
  match r with
  | Ok combined => Some (map model_name combined)
  | Error _ => None
  end.


(** The list of models asked for in cell 4b, and the keys of the dictionary
    as cell 8 printed them in the recorded run. *)
Definition mods : list string :=
  ["CMCC-CM2-HR4"; "CMCC-CM2-VHR4"; "HadGEM3-GC31-HM"; "HadGEM3-GC31-LL";
   "HadGEM3-GC31-MM"; "GFDL-CM4C192"]%string.

Definition recorded_mlist : list string :=
  ["HighResMIP.CMCC.CMCC-CM2-VHR4.hist-1950.SImon.gn";
   "HighResMIP.CMCC.CMCC-CM2-HR4.hist-1950.SImon.gn";
   "HighResMIP.MOHC.HadGEM3-GC31-LL.hist-1950.SImon.gn";
   "HighResMIP.MOHC.HadGEM3-GC31-HM.hist-1950.SImon.gn";
   "HighResMIP.MOHC.HadGEM3-GC31-MM.hist-1950.SImon.gn";
   "HighResMIP.NOAA-GFDL.GFDL-CM4C192.hist-1950.SImon.gn"]%string.

(** A dictionary with the recorded keys in the recorded order. *)
Definition globals_recorded : Globals :=
  {| ref_ds := ref_ocean; obs_shape := (1, 1);
     base := observation_baseline DEF obs24;
     ddict := map (fun key => (key, model_a)) recorded_mlist |}.

(** ** Binary64 arithmetic

    The metric on binary64 numbers, those of the kernel, with the
    operations in the order of the code: [sum(dim='tdim')] adds the time
    slices one after the other from the first, a term that is not-a-number
    counting as zero; [mean(dim='tdim')] divides that sum by the number of
    terms that are not not-a-number; [** 2] multiplies a value by itself. *)

Module B64.

Local Open Scope float_scope.

Definition Field : Type := nat -> nat -> float.
Definition Series : Type := list (date * Field).

(** The integer [z] as a binary64 number (exact below [2^53]). *)
Definition of_Z (z : Z) : float :=
  match z with
  | Z0 => 0
  | Zpos _ => of_uint63 (Uint63.of_Z z)
  | Zneg p => - of_uint63 (Uint63.of_Z (Zpos p))
  end.

(** The binary64 number nearest to [n/d]: what the decimal literal of that
    value denotes in Python. *)
Definition dec (n : Z) (d : positive) : float := of_Z n / of_Z (Zpos d).

Definition nansum (l : list float) : float :=
  fold_left (fun acc a => if is_nan a then acc else acc + a) l 0.

Definition count (l : list float) : nat :=
  length (filter (fun a => negb (is_nan a)) l).

Definition nanmean (l : list float) : float :=
  nansum l / of_Z (Z.of_nat (count l)).

(** [(a - b) ** 2] and [1 - (MEF_num/MEF_den)] at one element. *)
Definition sqdiff (a b : float) : float := (a - b) * (a - b).
Definition mef (num den : float) : float := 1 - num / den.

Definition cell (s : Series) (y x : nat) : list float :=
  map (fun p => snd p y x) s.

Definition broadcast (g : float -> float -> float) (s : Series) (f : Field) : Series :=
  map (fun p => (fst p, fun y x => g (snd p y x) (f y x))) s.

Definition zip_series (g : float -> float -> float) (a b : Series) : Series :=
  map (fun pq => (fst (fst pq), fun y x => g (snd (fst pq) y x) (snd (snd pq) y x)))
      (combine a b).

Definition sum_tdim (s : Series) : Field := fun y x => nansum (cell s y x).
Definition mean_tdim (s : Series) : Field := fun y x => nanmean (cell s y x).

Definition MEF_num (obs_da model_da : Series) : Series :=
  zip_series sqdiff obs_da model_da.

Definition MEF_den (obs_da : Series) (o_mean : Field) : Series :=
  broadcast sqdiff obs_da o_mean.

(** MEF - ANNUAL *)
Definition MEF_a (obs_da model_da : Series) (o_mean : Field) : Field :=
  let num := sum_tdim (MEF_num obs_da model_da) in
  let den := sum_tdim (MEF_den obs_da o_mean) in
  fun y x => mef (num y x) (den y x).

Section GroupBy.

Context {K : Type} (K_eqb : K -> K -> bool) (K_leb : K -> K -> bool).
Variable key : date -> K.

Definition group (k : K) (s : Series) : Series :=
  filter (fun p => K_eqb (key (fst p)) k) s.

(** [groupby(...).sum(dim='tdim')]: each group is summed on its own, in the
    order of time. *)
Definition groupby_sum (s : Series) : list (K * Field) :=
  map (fun k => (k, sum_tdim (group k s)))
      (unique K_eqb K_leb (map (fun p => key (fst p)) s)).

(** The totals of the groups added up, in the order of the labels. *)
Definition group_total (g : list (K * Field)) (y x : nat) : float :=
  fold_left add (map (fun kf => snd kf y x) g) 0.

End GroupBy.

Definition series_of (ds : list date) (vs : list float) : Series :=
  map (fun dv => (fst dv, fun _ _ => snd dv)) (combine ds vs).

(** The scenario of the specification and the series over the complete
    window, as binary64 arrays. *)
Definition obs4 : Series :=
  series_of (months_from window_lo 4) [dec 1 10; dec 2 10; dec 3 10; dec 4 10].
Definition obs432 : Series :=
  map (fun d => (d, fun _ _ => dec (Z.of_nat (month d)) 20)) fixed_window.
Definition model432 : Series :=
  map (fun d => (d, fun _ _ => dec (Z.of_nat (year d) - 1970) 50)) fixed_window.

End B64.


(** ** The loop with the reference dataset as a shared object

    [subset_bbox(ref_ds, **bbox)] is given the dataset itself, not a copy of
    it: what the collaborator does to its argument is what the next
    iteration finds in [ref_ds].  Here the collaborator returns the subset
    together with the dataset as it leaves it; the state of the loop holds
    [ref_ds] beside the list [MEF], and it keeps a record of what each
    iteration builds under TARGET - REFERENCE, the target grid and the
    regridder.  No statement of the body assigns [ref_ds] or changes the
    bounds of the box.  [mask] was computed from [ref_ds] in cell 2, before
    the loop, and is an array of its own. *)

Record LoopState : Type := mkLoopState {
  st_ref_ds : RefDataset;
  st_MEF : list MetricSet;
  st_built : list (Grid * Regridder)
}.

Section SharedRef.

Variable subset_bbox_io : RefDataset -> Z * Z -> Z * Z -> Grid * RefDataset.
Variable regrid : Regridder -> Field -> Field.

Definition MEF_body_io (g : Globals) (mask : Field) (source_id : list string)
  (j : nat) (st : LoopState) : result LoopState :=
  key <- index (mlist g) j ;;
  model_ds <- getitem (ddict g) key ;;
  model <- index source_id j ;;
  let called := subset_bbox_io (st_ref_ds st) lon_bnds lat_bnds in
  let ds_tgt := fst called in
  let reg_bil := regridder model_ds ds_tgt in
  model_da <- normalise_on regrid ds_tgt mask (obs_time (base g)) model_ds ;;
  let dataset := metrics ds_tgt (obs_shape g) (base g) model_da model in
  Ok {| st_ref_ds := snd called;
        st_MEF := st_MEF st ++ [dataset];
        st_built := st_built st ++ [(ds_tgt, reg_bil)] |}.

Definition loop_io (g : Globals) : result LoopState :=
  source_id <- for_range (source_id_body g) (seq 0 (lct g)) [] ;;
  for_range (MEF_body_io g (mask_of (ref_ds g)) source_id) (seq 0 (lct g))
            {| st_ref_ds := ref_ds g; st_MEF := []; st_built := [] |}.

Definition run_io (g : Globals) : result (list MetricSet) :=
  st <- loop_io g ;;
  concat (st_MEF st).

(** The same run with the target grid built once, before the loop. *)
Definition run_io_hoisted (g : Globals) : result (list MetricSet) :=
  let ds_tgt := fst (subset_bbox_io (ref_ds g) lon_bnds lat_bnds) in
  source_id <- for_range (source_id_body g) (seq 0 (lct g)) [] ;;
  MEF <- for_range (MEF_body_hoisted regrid g ds_tgt source_id) (seq 0 (lct g)) [] ;;
  concat MEF.

End SharedRef.

(** Two collaborators: one that leaves its argument as it is, and one that
    crops it in place. *)
Definition unchanged (subset_bbox : RefDataset -> Z * Z -> Z * Z -> Grid)
  : RefDataset -> Z * Z -> Z * Z -> Grid * RefDataset :=
  fun ref_ds lon lat => (subset_bbox ref_ds lon lat, ref_ds).

Definition cropping : RefDataset -> Z * Z -> Z * Z -> Grid * RefDataset :=
  fun ref_ds _ _ =>
    (ref_grid ref_ds, {| ref_grid := grid_of 0 0; landmask := landmask ref_ds |}).

(** The shapes of the target grids and of the input grids of the regridders
    that a loop has built. *)
Definition built_shapes (r : result LoopState)
  : option (list ((nat * nat) * (nat * nat))) :=
  match r with
  | Ok st => Some (map (fun tr => ((g_ny (fst tr), g_nx (fst tr)),
                                   (g_ny (grid_in (snd tr)), g_nx (grid_in (snd tr)))))
                       (st_built st))
  | Error _ => None
  end.

(** * Properties *)

(** ** Arithmetic of the values *)

Module F64Facts.
Import F64.

Lemma same_eq (a b : t) : same a b = true -> a = b.
Proof.
  destruct a, b; simpl; try discriminate; try reflexivity.
  intros H. f_equal. now apply Qc_eq_bool_correct.
Qed.

Lemma add_zero_l (a : t) : add zero a = a.
Proof.
  destruct a; simpl; try reflexivity.
  f_equal. unfold qc. ring.
Qed.

Lemma nansum_cons (a : t) (l : list t) :
  nansum (a :: l) = if isnan a then nansum l else add a (nansum l).
Proof. unfold nansum. simpl. now destruct (isnan a). Qed.

Lemma sgn_zero : sgn (qc 0 1) = Eq.
Proof. reflexivity. Qed.

Lemma sgn_Eq (q : Qc) : sgn q = Eq <-> q = qc 0 1.
Proof. unfold sgn. symmetry. apply Qceq_alt. Qed.

Lemma sgn_nonneg (q : Qc) : (qc 0 1 <= q)%Qc -> sgn q <> Lt.
Proof.
  intros H E. unfold sgn in E. apply Qclt_alt in E.
  now apply (Qcle_not_lt _ _ H).
Qed.

Lemma sgn_nonneg_Gt (q : Qc) : (qc 0 1 <= q)%Qc -> q <> qc 0 1 -> sgn q = Gt.
Proof.
  intros H N. destruct (sgn q) eqn:E.
  - now apply sgn_Eq in E.
  - now apply sgn_nonneg in E.
  - reflexivity.
Qed.

Lemma square_nonneg (q : Qc) : (qc 0 1 <= q * q)%Qc.
Proof.
  unfold qc, Qcle, Qcmult, Q2Qc. cbn [this]. rewrite !Qred_correct.
  destruct (Qlt_le_dec (this q) 0) as [Hn|Hp].
  - setoid_replace (this q * this q)%Q with ((- this q) * (- this q))%Q by ring.
    apply Qmult_le_0_compat; apply Qlt_le_weak;
      apply (Qopp_lt_compat (this q) 0); exact Hn.
  - now apply Qmult_le_0_compat.
Qed.

Lemma nonneg_not_nan (a : t) : nonneg a -> isnan a = false.
Proof. now destruct a. Qed.

Lemma nonneg_zero : nonneg zero.
Proof. simpl. apply Qcle_refl. Qed.

Lemma nonneg_add (a b : t) : nonneg a -> nonneg b -> nonneg (add a b).
Proof.
  destruct a, b; simpl; try tauto.
  intros Ha Hb.
  replace (qc 0 1) with (qc 0 1 + qc 0 1)%Qc by (unfold qc; ring).
  now apply Qcplus_le_compat.
Qed.

(** A square is not-a-number only at not-a-number, and is never negative. *)
Lemma sq_cases (a : t) : sq a = NaN /\ a = NaN \/ nonneg (sq a).
Proof.
  destruct a; simpl; auto.
  right. apply square_nonneg.
Qed.

Lemma nonneg_nansum (l : list t) :
  Forall (fun a => a = NaN \/ nonneg a) l -> nonneg (nansum l).
Proof.
  induction 1 as [|a l Ha _ IH].
  - apply nonneg_zero.
  - rewrite nansum_cons. destruct Ha as [-> | Ha]; simpl.
    + exact IH.
    + rewrite (nonneg_not_nan _ Ha). now apply nonneg_add.
Qed.

Lemma nansum_all_nan (l : list t) :
  Forall (fun a => a = NaN) l -> nansum l = zero.
Proof.
  induction 1 as [|a l Ha _ IH]; [reflexivity|].
  rewrite nansum_cons, Ha. exact IH.
Qed.

Lemma count_all_nan (l : list t) :
  Forall (fun a => a = NaN) l -> count l = 0.
Proof.
  induction 1 as [|a l Ha _ IH]; [reflexivity|].
  unfold count in *. simpl. now rewrite Ha.
Qed.

Lemma nanmean_all_nan (l : list t) :
  Forall (fun a => a = NaN) l -> nanmean l = NaN.
Proof.
  intros H. unfold nanmean. now rewrite nansum_all_nan, count_all_nan.
Qed.

End F64Facts.

(** ** Grouping: the groups partition the series *)

Section GroupByFacts.

Context {K : Type} (K_eqb : K -> K -> bool) (K_leb : K -> K -> bool).
Variable key : date -> K.
Hypothesis K_eqb_eq : forall a b, K_eqb a b = true <-> a = b.

Lemma insert_sorted_perm (k : K) (l : list K) :
  Permutation (insert_sorted K_leb k l) (k :: l).
Proof.
  induction l as [|h t IH]; simpl.
  - apply Permutation_refl.
  - destruct (K_leb k h).
    + apply Permutation_refl.
    + eapply perm_trans; [apply perm_skip, IH | apply perm_swap].
Qed.

Lemma sort_perm (l : list K) : Permutation (sort K_leb l) l.
Proof.
  induction l as [|h t IH]; simpl.
  - apply perm_nil.
  - eapply perm_trans; [apply insert_sorted_perm | now apply perm_skip].
Qed.

Lemma existsb_eqb_In (k : K) (l : list K) :
  existsb (K_eqb k) l = true <-> In k l.
Proof.
  rewrite existsb_exists. split.
  - intros (k' & Hin & E). apply K_eqb_eq in E. now subst.
  - intros Hin. exists k. split; [exact Hin | now apply K_eqb_eq].
Qed.

Lemma dedup_In (k : K) (l : list K) : In k (dedup K_eqb l) <-> In k l.
Proof.
  induction l as [|h t IH]; simpl; [tauto|].
  destruct (existsb (K_eqb h) t) eqn:E.
  - rewrite IH. apply existsb_eqb_In in E. split; [tauto|].
    intros [<- | H]; assumption.
  - simpl. now rewrite IH.
Qed.

Lemma dedup_NoDup (l : list K) : NoDup (dedup K_eqb l).
Proof.
  induction l as [|h t IH]; simpl; [constructor|].
  destruct (existsb (K_eqb h) t) eqn:E; [exact IH|].
  constructor; [|exact IH].
  rewrite dedup_In. intros Hin. apply existsb_eqb_In in Hin. congruence.
Qed.

Lemma unique_In (k : K) (l : list K) : In k (unique K_eqb K_leb l) <-> In k l.
Proof.
  unfold unique. rewrite <- (dedup_In k l). split; intros H.
  - eapply Permutation_in; [apply sort_perm | exact H].
  - eapply Permutation_in; [apply Permutation_sym, sort_perm | exact H].
Qed.

Lemma unique_NoDup (l : list K) : NoDup (unique K_eqb K_leb l).
Proof.
  unfold unique. eapply Permutation_NoDup.
  - apply Permutation_sym, sort_perm.
  - apply dedup_NoDup.
Qed.

Lemma K_eqb_refl (k : K) : K_eqb k k = true.
Proof. now apply K_eqb_eq. Qed.

Lemma lookup_map (F : K -> Field) (k : K) (ks : list K) :
  In k ks -> lookup K_eqb k (map (fun k => (k, F k)) ks) = Some (F k).
Proof.
  induction ks as [|h t IH]; intros Hin; [destruct Hin|].
  simpl. destruct (K_eqb h k) eqn:E.
  - apply K_eqb_eq in E. now subst.
  - destruct Hin as [-> | Hin]; [now rewrite K_eqb_refl in E | now apply IH].
Qed.

(** The ratio of two grouped sums whose labels agree, group by group. *)
Lemma zip_groups_groupby (g : f64 -> f64 -> f64) (s1 s2 : Series) :
  incl (labels key s1) (labels key s2) ->
  zip_groups K_eqb g (groupby_sum K_eqb K_leb key s1) (groupby_sum K_eqb K_leb key s2)
  = map (fun k => (k, fun y x => g (sum_tdim (group K_eqb key k s1) y x)
                                   (sum_tdim (group K_eqb key k s2) y x)))
        (unique K_eqb K_leb (labels key s1)).
Proof.
  intros Hincl. unfold zip_groups, groupby_sum.
  assert (H : forall ks, incl ks (unique K_eqb K_leb (labels key s2)) ->
    flat_map (fun ka =>
       match lookup K_eqb (fst ka)
               (map (fun k => (k, sum_tdim (group K_eqb key k s2)))
                    (unique K_eqb K_leb (labels key s2))) with
       | Some fb => [(fst ka, fun y x => g (snd ka y x) (fb y x))]
       | None => []
       end) (map (fun k => (k, sum_tdim (group K_eqb key k s1))) ks)
    = map (fun k => (k, fun y x => g (sum_tdim (group K_eqb key k s1) y x)
                                     (sum_tdim (group K_eqb key k s2) y x))) ks).
  { induction ks as [|k ks IH]; intros Hks; [reflexivity|].
    simpl. rewrite (lookup_map (fun k => sum_tdim (group K_eqb key k s2)))
      by (apply Hks; now left).
    simpl. f_equal. apply IH. intros k' Hk'. apply Hks. now right. }
  apply H. intros k Hk. apply unique_In, Hincl. exact (proj1 (unique_In k _) Hk).
Qed.

End GroupByFacts.

(** ** The ratio at one element *)

(** Over a zero denominator the value is not-a-number at a zero numerator
    and minus infinity at any other numerator a sum of squares can be. *)
Lemma mef_degenerate (num : f64) :
  F64.nonneg num ->
  (num = F64.zero /\ mef num F64.zero = F64.NaN)
  \/ (num <> F64.zero /\ mef num F64.zero = F64.NInf).
Proof.
  destruct num as [| |q|]; intros Hq; try (now destruct Hq).
  - destruct (Qc_eq_dec q (F64.qc 0 1)) as [->|Hne].
    + left. split; reflexivity.
    + right. split; [intros E; inversion E; contradiction|].
      unfold mef, F64.div, F64.zero. rewrite F64Facts.sgn_zero.
      now rewrite (F64Facts.sgn_nonneg_Gt q Hq Hne).
  - right. split; [discriminate | reflexivity].
Qed.

(** A zero numerator over a denominator that is not zero gives one. *)
Lemma mef_perfect (den : f64) :
  F64.nonneg den -> den <> F64.zero -> mef F64.zero den = F64.one.
Proof.
  destruct den as [| |q|]; intros Hq Hne; try (now destruct Hq).
  assert (Hq0 : q <> F64.qc 0 1) by (intros ->; now apply Hne).
    unfold mef, F64.div, F64.zero.
    rewrite (F64Facts.sgn_nonneg_Gt q Hq Hq0).
    unfold F64.one, F64.sub, F64.opp, F64.add. now f_equal.
Qed.

Lemma mef_finite (a b : Qc) :
  b <> F64.qc 0 1 ->
  mef (F64.Fin a) (F64.Fin b) = F64.Fin (F64.qc 1 1 - a / b)%Qc.
Proof.
  intros Hb. unfold mef, F64.div.
  destruct (F64.sgn b) eqn:E.
  - now apply F64Facts.sgn_Eq in E.
  - reflexivity.
  - reflexivity.
Qed.

(** ** Series at one cell *)

Lemma cell_zip_series (g : f64 -> f64 -> f64) (a b : Series) (y x : nat) :
  cell (zip_series g a b) y x
  = map (fun uv => g (fst uv) (snd uv)) (combine (cell a y x) (cell b y x)).
Proof.
  unfold zip_series, cell. rewrite map_map.
  revert b. induction a as [|p a IH]; intros [|q b]; simpl; try reflexivity.
  now rewrite IH.
Qed.

Lemma cell_broadcast (g : f64 -> f64 -> f64) (s : Series) (f : Field) (y x : nat) :
  cell (broadcast g s f) y x = map (fun u => g u (f y x)) (cell s y x).
Proof. unfold broadcast, cell. now rewrite !map_map. Qed.

Lemma cell_map_series (g : f64 -> f64) (s : Series) (y x : nat) :
  cell (map_series g s) y x = map g (cell s y x).
Proof. unfold map_series, cell. now rewrite !map_map. Qed.

Lemma cell_filter (P : f64 -> Prop) (c : date * Field -> bool) (s : Series) (y x : nat) :
  Forall P (cell s y x) -> Forall P (cell (filter c s) y x).
Proof.
  unfold cell. rewrite !Forall_map, !Forall_forall.
  intros H p Hp. apply H. now apply filter_In in Hp.
Qed.

(** The terms of the numerator are squares. *)
Lemma MEF_num_squares (obs_da model_da : Series) (y x : nat) :
  Forall (fun a => a = F64.NaN \/ F64.nonneg a) (cell (MEF_num obs_da model_da) y x).
Proof.
  unfold MEF_num. rewrite cell_zip_series, Forall_map, Forall_forall.
  intros uv _. unfold sqdiff.
  destruct (F64Facts.sq_cases (F64.sub (fst uv) (snd uv))) as [[H _]|H]; auto.
Qed.

Lemma MEF_den_squares (obs_da : Series) (o_mean : Field) (y x : nat) :
  Forall (fun a => a = F64.NaN \/ F64.nonneg a) (cell (MEF_den obs_da o_mean) y x).
Proof.
  unfold MEF_den. rewrite cell_broadcast, Forall_map, Forall_forall.
  intros u _. unfold sqdiff.
  destruct (F64Facts.sq_cases (F64.sub u (o_mean y x))) as [[H _]|H]; auto.
Qed.

Lemma sum_tdim_nonneg (c : date * Field -> bool) (s : Series) (y x : nat) :
  Forall (fun a => a = F64.NaN \/ F64.nonneg a) (cell s y x) ->
  F64.nonneg (sum_tdim (filter c s) y x).
Proof.
  intros H. unfold sum_tdim. apply F64Facts.nonneg_nansum.
  now apply cell_filter.
Qed.

Lemma filter_all {A : Type} (l : list A) : filter (fun _ => true) l = l.
Proof. induction l as [|a l IH]; simpl; congruence. Qed.

Lemma labels_zip_series {K : Type} (key : date -> K) (g : f64 -> f64 -> f64)
  (a b : Series) :
  incl (labels key (zip_series g a b)) (labels key a).
Proof.
  unfold labels, zip_series. rewrite map_map. simpl.
  revert b. induction a as [|p a IH]; intros [|q b] k Hk; simpl in *;
    try contradiction.
  destruct Hk as [<-|Hk]; [now left | right; now apply (IH b)].
Qed.

Lemma labels_broadcast {K : Type} (key : date -> K) (g : f64 -> f64 -> f64)
  (s : Series) (f : Field) :
  labels key (broadcast g s f) = labels key s.
Proof. unfold labels, broadcast. now rewrite map_map. Qed.

Lemma labels_num_den {K : Type} (key : date -> K) (obs_da model_da : Series)
  (o_mean : Field) :
  incl (labels key (MEF_num obs_da model_da)) (labels key (MEF_den obs_da o_mean)).
Proof.
  unfold MEF_num, MEF_den. rewrite labels_broadcast. apply labels_zip_series.
Qed.

(** Every monthly value is the ratio of the sums of its own group. *)
Lemma MEF_m_groups (obs_da model_da : Series) (o_mean : Field) (k : nat) (f : Field) :
  In (k, f) (MEF_m obs_da model_da o_mean) ->
  f = fun y x =>
        mef (sum_tdim (group Nat.eqb by_month k (MEF_num obs_da model_da)) y x)
            (sum_tdim (group Nat.eqb by_month k (MEF_den obs_da o_mean)) y x).
Proof.
  unfold MEF_m.
  rewrite (zip_groups_groupby Nat.eqb Nat.leb by_month Nat.eqb_eq)
    by apply labels_num_den.
  intros H. apply in_map_iff in H. destruct H as (k' & E & _).
  now inversion E.
Qed.

(** Every seasonal value is the ratio of the sums of its own group. *)
Lemma MEF_s_groups (obs_da model_da : Series) (o_mean : Field) (k : string) (f : Field) :
  In (k, f) (MEF_s obs_da model_da o_mean) ->
  f = fun y x =>
        mef (sum_tdim (group String.eqb by_season k (MEF_num obs_da model_da)) y x)
            (sum_tdim (group String.eqb by_season k (MEF_den obs_da o_mean)) y x).
Proof.
  unfold MEF_s.
  rewrite (zip_groups_groupby String.eqb String.leb by_season String.eqb_eq)
    by apply labels_num_den.
  intros H. apply in_map_iff in H. destruct H as (k' & E & _).
  now inversion E.
Qed.

(** ** Groups that are present *)

Lemma MEF_m_has_group (obs_da model_da : Series) (o_mean : Field) (k : nat) :
  In k (labels by_month (MEF_num obs_da model_da)) ->
  exists f, In (k, f) (MEF_m obs_da model_da o_mean).
Proof.
  intros Hk. unfold MEF_m.
  rewrite (zip_groups_groupby Nat.eqb Nat.leb by_month Nat.eqb_eq)
    by apply labels_num_den.
  eexists. apply in_map_iff. exists k. split; [reflexivity|].
  now apply (unique_In Nat.eqb Nat.leb Nat.eqb_eq).
Qed.

Lemma MEF_s_has_group (obs_da model_da : Series) (o_mean : Field) (k : string) :
  In k (labels by_season (MEF_num obs_da model_da)) ->
  exists f, In (k, f) (MEF_s obs_da model_da o_mean).
Proof.
  intros Hk. unfold MEF_s.
  rewrite (zip_groups_groupby String.eqb String.leb by_season String.eqb_eq)
    by apply labels_num_den.
  eexists. apply in_map_iff. exists k. split; [reflexivity|].
  now apply (unique_In String.eqb String.leb String.eqb_eq).
Qed.

(** ** The annual metric against the formula *)

Ltac f64_neq :=
  let H := fresh in
  intro H; apply (f_equal (fun a => F64.same a F64.zero)) in H;
  vm_compute in H; discriminate H.

Ltac qc_neq :=
  let H := fresh in
  intro H; apply (f_equal (fun q => Qc_eq_bool q (F64.qc 0 1))) in H;
  vm_compute in H; discriminate H.

(** ** Identity: a model equal to the observations *)

Lemma sqdiff_self (a : f64) : sqdiff a a = F64.NaN \/ sqdiff a a = F64.zero.
Proof.
  destruct a as [| |q|]; simpl; auto.
  right. unfold sqdiff, F64.sub, F64.opp, F64.add, F64.sq, F64.mul, F64.zero.
  f_equal. unfold F64.qc. ring.
Qed.

Lemma nansum_nan_or_zero (l : list f64) :
  Forall (fun a => a = F64.NaN \/ a = F64.zero) l -> F64.nansum l = F64.zero.
Proof.
  induction 1 as [|a l Ha _ IH]; [reflexivity|].
  rewrite F64Facts.nansum_cons, IH. destruct Ha as [->| ->]; reflexivity.
Qed.

Lemma combine_self {A : Type} (l : list A) (uv : A * A) :
  In uv (combine l l) -> fst uv = snd uv.
Proof.
  induction l as [|a l IH]; simpl; [tauto|].
  intros [<-|H]; [reflexivity | now apply IH].
Qed.

Lemma identity_terms (obs_da model_da : Series) (y x : nat) :
  cell model_da y x = cell obs_da y x ->
  Forall (fun a => a = F64.NaN \/ a = F64.zero) (cell (MEF_num obs_da model_da) y x).
Proof.
  intros E. unfold MEF_num. rewrite cell_zip_series, E, Forall_map, Forall_forall.
  intros uv Huv. rewrite (combine_self _ _ Huv). apply sqdiff_self.
Qed.

Lemma identity_sum (c : date * Field -> bool) (obs_da model_da : Series) (y x : nat) :
  cell model_da y x = cell obs_da y x ->
  sum_tdim (filter c (MEF_num obs_da model_da)) y x = F64.zero.
Proof.
  intros E. unfold sum_tdim. apply nansum_nan_or_zero, cell_filter.
  now apply identity_terms.
Qed.

(** C5.  At a cell where the normalised model equals the observations at
    every time step, the annual value is 1 where the annual denominator is
    not zero, and the value of every month and of every season is 1 where
    the denominator of that month or season is not zero. *)
Theorem C5_identity (obs_da model_da : Series) (o_mean : Field) (y x : nat) :
  cell model_da y x = cell obs_da y x ->
  (sum_tdim (MEF_den obs_da o_mean) y x <> F64.zero ->
   MEF_a obs_da model_da o_mean y x = F64.one)
  /\ (forall k f, In (k, f) (MEF_m obs_da model_da o_mean) ->
        sum_tdim (group Nat.eqb by_month k (MEF_den obs_da o_mean)) y x <> F64.zero ->
        f y x = F64.one)
  /\ (forall k f, In (k, f) (MEF_s obs_da model_da o_mean) ->
        sum_tdim (group String.eqb by_season k (MEF_den obs_da o_mean)) y x <> F64.zero ->
        f y x = F64.one).
Proof.
  intros E. split; [|split].
  - intros Hden. unfold MEF_a.
    rewrite <- (filter_all (MEF_num obs_da model_da)), (identity_sum _ _ _ _ _ E).
    apply mef_perfect; [|exact Hden].
    rewrite <- (filter_all (MEF_den obs_da o_mean)).
    apply sum_tdim_nonneg, MEF_den_squares.
  - intros k f Hin Hden. rewrite (MEF_m_groups _ _ _ _ _ Hin).
    unfold group at 1. rewrite (identity_sum _ _ _ _ _ E).
    apply mef_perfect; [|exact Hden].
    apply sum_tdim_nonneg, MEF_den_squares.
  - intros k f Hin Hden. rewrite (MEF_s_groups _ _ _ _ _ Hin).
    unfold group at 1. rewrite (identity_sum _ _ _ _ _ E).
    apply mef_perfect; [|exact Hden].
    apply sum_tdim_nonneg, MEF_den_squares.
Qed.

Lemma C5_identity_witness :
  MEF_a obs24 obs24 (mean_tdim obs24) 0 0 = F64.one
  /\ (exists f, In (12, f) (MEF_m obs24 obs24 (mean_tdim obs24)) /\ f 0 0 = F64.one)
  /\ (exists f, In ("DJF"%string, f) (MEF_s obs24 obs24 (mean_tdim obs24))
                /\ f 0 0 = F64.one).
Proof.
  destruct (C5_identity obs24 obs24 (mean_tdim obs24) 0 0 eq_refl) as (Ha & Hm & Hs).
  split; [|split].
  - apply Ha. f64_neq.
  - destruct (MEF_m_has_group obs24 obs24 (mean_tdim obs24) 12) as [f Hf];
      [vm_compute; left; reflexivity|].
    exists f. split; [exact Hf|]. apply (Hm 12 f Hf). f64_neq.
  - destruct (MEF_s_has_group obs24 obs24 (mean_tdim obs24) "DJF") as [f Hf];
      [vm_compute; left; reflexivity|].
    exists f. split; [exact Hf|]. apply (Hs "DJF"%string f Hf). f64_neq.
Defined.

(** The denominator that matters is the one of the group: with the
    variation I80100 on observations 0.5 and 0.9 in turn, the Decembers are
    all filtered out; for a model equal to the filtered observations the
    annual value is 1 while the value of December is not-a-number. *)
Lemma identity_own_denominator :
  let b := observation_baseline I80100 obs24 in
  MEF_a (obs_da b) (obs_da b) (o_mean b) 0 0 = F64.one
  /\ exists f, In (12, f) (MEF_m (obs_da b) (obs_da b) (o_mean b))
               /\ f 0 0 = F64.NaN.
Proof.
  intros b. split.
  - apply F64Facts.same_eq. vm_compute. reflexivity.
  - destruct (MEF_m_has_group (obs_da b) (obs_da b) (o_mean b) 12) as [f Hf];
      [vm_compute; left; reflexivity|].
    exists f. split; [exact Hf|].
    rewrite (MEF_m_groups _ _ _ _ _ Hf).
    apply F64Facts.same_eq. vm_compute. reflexivity.
Qed.

(** ** A zero denominator *)

Lemma nth_error_combine {A B : Type} (a : list A) (b : list B) (i : nat) :
  nth_error (combine a b) i
  = match nth_error a i, nth_error b i with
    | Some u, Some v => Some (u, v)
    | _, _ => None
    end.
Proof.
  revert b i. induction a as [|u a IH]; intros [|v b] [|i]; simpl; try reflexivity.
  - now destruct (nth_error a i).
  - apply IH.
Qed.

Lemma MEF_b_step (ny nx oy ox : nat) (obs_da model_da : Series) (o_mean : Field)
  (i : nat) (num den : f64) :
  at_step (sum_xy ny nx (MEF_num obs_da model_da)) i = Some num ->
  at_step (sum_xy oy ox (MEF_den obs_da o_mean)) i = Some den ->
  at_step (MEF_b ny nx oy ox obs_da model_da o_mean) i = Some (mef num den).
Proof.
  unfold at_step, MEF_b. intros Hn Hd.
  rewrite nth_error_map, nth_error_combine.
  destruct (nth_error (sum_xy ny nx (MEF_num obs_da model_da)) i) as [[dn n]|];
    [|discriminate].
  destruct (nth_error (sum_xy oy ox (MEF_den obs_da o_mean)) i) as [[dd d]|];
    [|discriminate].
  simpl in *. congruence.
Qed.

Lemma values_Forall (P : f64 -> Prop) (ny nx : nat) (f : Field) :
  (forall y x, P (f y x)) -> Forall P (values ny nx f).
Proof.
  intros H. unfold values. apply Forall_flat_map, Forall_forall. intros y _.
  apply Forall_map, Forall_forall. intros x _. apply H.
Qed.

Lemma MEF_num_slices (obs_da model_da : Series) (p : date * Field) :
  In p (MEF_num obs_da model_da) ->
  forall y x, snd p y x = F64.NaN \/ F64.nonneg (snd p y x).
Proof.
  unfold MEF_num, zip_series. intros H y x.
  apply in_map_iff in H. destruct H as (pq & <- & _). simpl. unfold sqdiff.
  destruct (F64Facts.sq_cases (F64.sub (snd (fst pq) y x) (snd (snd pq) y x)))
    as [[H _]|H]; auto.
Qed.

Lemma binned_num_nonneg (ny nx : nat) (obs_da model_da : Series) (i : nat) (num : f64) :
  at_step (sum_xy ny nx (MEF_num obs_da model_da)) i = Some num -> F64.nonneg num.
Proof.
  unfold at_step, sum_xy. rewrite nth_error_map.
  destruct (nth_error (MEF_num obs_da model_da) i) as [p|] eqn:E; [|discriminate].
  simpl. intros H. inversion H. subst num.
  apply F64Facts.nonneg_nansum, values_Forall.
  apply (MEF_num_slices obs_da model_da). eapply nth_error_In, E.
Qed.

(** C3 (amended).  Where the denominator sum is exactly zero, the value is
    not-a-number if the numerator sum is zero as well (as it is at an
    entirely masked cell) and minus infinity otherwise; this holds at every
    cell of the annual, monthly and seasonal outputs and at every time step
    of the binned output.  Nothing is raised and nothing is clamped. *)
Theorem C3_zero_denominator (obs_da model_da : Series) (o_mean : Field) :
  (forall y x,
      sum_tdim (MEF_den obs_da o_mean) y x = F64.zero ->
      let num := sum_tdim (MEF_num obs_da model_da) y x in
      (num = F64.zero /\ MEF_a obs_da model_da o_mean y x = F64.NaN)
      \/ (num <> F64.zero /\ MEF_a obs_da model_da o_mean y x = F64.NInf))
  /\ (forall k f y x,
        In (k, f) (MEF_m obs_da model_da o_mean) ->
        sum_tdim (group Nat.eqb by_month k (MEF_den obs_da o_mean)) y x = F64.zero ->
        let num := sum_tdim (group Nat.eqb by_month k (MEF_num obs_da model_da)) y x in
        (num = F64.zero /\ f y x = F64.NaN) \/ (num <> F64.zero /\ f y x = F64.NInf))
  /\ (forall k f y x,
        In (k, f) (MEF_s obs_da model_da o_mean) ->
        sum_tdim (group String.eqb by_season k (MEF_den obs_da o_mean)) y x = F64.zero ->
        let num := sum_tdim (group String.eqb by_season k (MEF_num obs_da model_da)) y x in
        (num = F64.zero /\ f y x = F64.NaN) \/ (num <> F64.zero /\ f y x = F64.NInf))
  /\ (forall ny nx oy ox i num,
        at_step (sum_xy ny nx (MEF_num obs_da model_da)) i = Some num ->
        at_step (sum_xy oy ox (MEF_den obs_da o_mean)) i = Some F64.zero ->
        let b := at_step (MEF_b ny nx oy ox obs_da model_da o_mean) i in
        (num = F64.zero /\ b = Some F64.NaN) \/ (num <> F64.zero /\ b = Some F64.NInf)).
Proof.
  split; [|split; [|split]].
  - intros y x Hden num. unfold MEF_a. fold num. rewrite Hden.
    apply mef_degenerate. subst num.
    rewrite <- (filter_all (MEF_num obs_da model_da)).
    apply sum_tdim_nonneg, MEF_num_squares.
  - intros k f y x Hin Hden num. rewrite (MEF_m_groups _ _ _ _ _ Hin).
    fold num. rewrite Hden. apply mef_degenerate.
    apply sum_tdim_nonneg, MEF_num_squares.
  - intros k f y x Hin Hden num. rewrite (MEF_s_groups _ _ _ _ _ Hin).
    fold num. rewrite Hden. apply mef_degenerate.
    apply sum_tdim_nonneg, MEF_num_squares.
  - intros ny nx oy ox i num Hn Hd b. subst b.
    rewrite (MEF_b_step _ _ _ _ _ _ _ _ _ _ Hn Hd).
    destruct (mef_degenerate num (binned_num_nonneg _ _ _ _ _ _ Hn))
      as [[H1 H2]|[H1 H2]]; [left | right]; (split; [exact H1 | now rewrite H2]).
Qed.

Lemma same_opt_eq (a : option f64) (b : f64) : same_opt a b = true -> a = Some b.
Proof.
  destruct a as [a|]; simpl; [|discriminate].
  intros H. f_equal. now apply F64Facts.same_eq.
Qed.

Ltac f64_absurd H :=
  apply (f_equal (fun a => F64.same a F64.zero)) in H;
  vm_compute in H; discriminate H.

Lemma C3_zero_denominator_witness :
  MEF_a obs24_const model24 (mean_tdim obs24_const) 0 0 = F64.NInf
  /\ (exists f, In (12, f) (MEF_m obs24_const model24 (mean_tdim obs24_const))
                /\ f 0 0 = F64.NInf)
  /\ (exists f, In ("DJF"%string, f) (MEF_s obs24_const model24 (mean_tdim obs24_const))
                /\ f 0 0 = F64.NInf)
  /\ at_step (MEF_b 1 1 1 1 obs24_const model24 (mean_tdim obs24_const)) 0
     = Some F64.NInf
  /\ MEF_a obs24_const obs24_const (mean_tdim obs24_const) 0 0 = F64.NaN.
Proof.
  destruct (C3_zero_denominator obs24_const model24 (mean_tdim obs24_const))
    as (Ha & Hm & Hs & Hb).
  split; [|split; [|split; [|split]]].
  - destruct (Ha 0 0) as [[H _]|[_ H]].
    + apply F64Facts.same_eq. vm_compute. reflexivity.
    + f64_absurd H.
    + exact H.
  - destruct (MEF_m_has_group obs24_const model24 (mean_tdim obs24_const) 12)
      as [f Hf]; [vm_compute; left; reflexivity|].
    exists f. split; [exact Hf|].
    destruct (Hm 12 f 0 0 Hf) as [[H _]|[_ H]].
    + apply F64Facts.same_eq. vm_compute. reflexivity.
    + f64_absurd H.
    + exact H.
  - destruct (MEF_s_has_group obs24_const model24 (mean_tdim obs24_const) "DJF")
      as [f Hf]; [vm_compute; left; reflexivity|].
    exists f. split; [exact Hf|].
    destruct (Hs "DJF"%string f 0 0 Hf) as [[H _]|[_ H]].
    + apply F64Facts.same_eq. vm_compute. reflexivity.
    + f64_absurd H.
    + exact H.
  - destruct (Hb 1 1 1 1 0 (dec 1 100)) as [[H _]|[_ H]].
    + apply same_opt_eq. vm_compute. reflexivity.
    + apply same_opt_eq. vm_compute. reflexivity.
    + f64_absurd H.
    + exact H.
  - destruct (C3_zero_denominator obs24_const obs24_const (mean_tdim obs24_const))
      as (Ha' & _).
    destruct (Ha' 0 0) as [[_ H]|[H _]].
    + apply F64Facts.same_eq. vm_compute. reflexivity.
    + exact H.
    + exfalso. apply H. apply F64Facts.same_eq. vm_compute. reflexivity.
Defined.

(** C3, as stated, fails: with a constant observation of 0.5 over two years
    the denominator of the cell is exactly zero, and the annual value of a
    model at 60 percent is minus infinity, not not-a-number. *)
Lemma C3_counterexample :
  sum_tdim (MEF_den (obs_da (observation_baseline DEF obs24_const))
                    (o_mean (observation_baseline DEF obs24_const))) 0 0 = F64.zero
  /\ first_annual (notebook whole_grid nearest DEF ref_ocean obs24_const (1, 1) two_models) 0 0
     = Some F64.NInf
  /\ F64.NInf <> F64.NaN.
Proof.
  split; [|split].
  - apply F64Facts.same_eq. vm_compute. reflexivity.
  - vm_compute. reflexivity.
  - discriminate.
Qed.

(** ** The groups partition the window *)

Lemma fst_zip_series (g : f64 -> f64 -> f64) (a b : Series) :
  length a = length b -> map fst (zip_series g a b) = map fst a.
Proof.
  unfold zip_series. rewrite map_map. simpl.
  revert b. induction a as [|p a IH]; intros [|q b] H; simpl in *;
    try reflexivity; try discriminate.
  f_equal. apply IH. now inversion H.
Qed.

Lemma fst_broadcast (g : f64 -> f64 -> f64) (s : Series) (f : Field) :
  map fst (broadcast g s f) = map fst s.
Proof. unfold broadcast. now rewrite map_map. Qed.

Lemma labels_fst {K : Type} (key : date -> K) (s : Series) :
  labels key s = map key (map fst s).
Proof. unfold labels. now rewrite map_map. Qed.

Lemma group_length {K : Type} (K_eqb : K -> K -> bool) (key : date -> K) (k : K)
  (s : Series) :
  length (group K_eqb key k s)
  = length (filter (fun d => K_eqb (key d) k) (map fst s)).
Proof.
  unfold group. induction s as [|p s IH]; [reflexivity|].
  simpl. destruct (K_eqb (key (fst p)) k); simpl; now rewrite IH.
Qed.

Lemma groupby_keys {K : Type} (K_eqb K_leb : K -> K -> bool) (key : date -> K)
  (s : Series) :
  map fst (groupby_sum K_eqb K_leb key s) = unique K_eqb K_leb (labels key s).
Proof. unfold groupby_sum. rewrite map_map. simpl. apply map_id. Qed.

Lemma window_length : length fixed_window = 432.
Proof. vm_compute. reflexivity. Qed.

Lemma window_last : nth_error fixed_window 431 = Some window_hi.
Proof. vm_compute. reflexivity. Qed.

Lemma window_months :
  unique Nat.eqb Nat.leb (map by_month fixed_window) = seq 1 12.
Proof. vm_compute. reflexivity. Qed.

Lemma window_seasons :
  unique String.eqb String.leb (map by_season fixed_window)
  = ["DJF"; "JJA"; "MAM"; "SON"]%string.
Proof. vm_compute. reflexivity. Qed.

Lemma window_month_size (k : nat) :
  In k (seq 1 12) ->
  length (filter (fun d => by_month d =? k) fixed_window) = 36.
Proof.
  intros H. simpl in H.
  repeat (destruct H as [<-|H]; [vm_compute; reflexivity|]).
  destruct H.
Qed.

Lemma window_season_size (k : string) :
  In k ["DJF"; "JJA"; "MAM"; "SON"]%string ->
  length (filter (fun d => String.eqb (by_season d) k) fixed_window) = 108.
Proof.
  intros H. simpl in H.
  repeat (destruct H as [<-|H]; [vm_compute; reflexivity|]).
  destruct H.
Qed.

(** What the groups of a series over the complete window are. *)
Lemma window_groups (s : Series) :
  map fst s = fixed_window ->
  map fst (groupby_sum Nat.eqb Nat.leb by_month s) = seq 1 12
  /\ map fst (groupby_sum String.eqb String.leb by_season s)
     = ["DJF"; "JJA"; "MAM"; "SON"]%string
  /\ (forall k, In k (seq 1 12) -> length (group Nat.eqb by_month k s) = 36)
  /\ (forall k, In k ["DJF"; "JJA"; "MAM"; "SON"]%string ->
        length (group String.eqb by_season k s) = 108).
Proof.
  intros E. rewrite !groupby_keys, !labels_fst, E.
  split; [apply window_months|]. split; [apply window_seasons|].
  split; intros k Hk; rewrite group_length, E.
  - now apply window_month_size.
  - now apply window_season_size.
Qed.

(** The slices that a test keeps and the slices that it drops make up the
    series. *)
Lemma filter_split {A : Type} (f : A -> bool) (l : list A) :
  Permutation (filter f l ++ filter (fun a => negb (f a)) l) l.
Proof.
  induction l as [|a l IH]; simpl; [constructor|].
  destruct (f a); simpl.
  - now constructor.
  - symmetry. apply Permutation_cons_app. now symmetry.
Qed.

Section Partition.

Context {K : Type} (K_eqb : K -> K -> bool) (K_leb : K -> K -> bool).
Variable key : date -> K.
Hypothesis K_eqb_eq : forall a b, K_eqb a b = true <-> a = b.

Lemma group_other (k k' : K) (s : Series) :
  k' <> k ->
  group K_eqb key k' (filter (fun p => negb (K_eqb (key (fst p)) k)) s)
  = group K_eqb key k' s.
Proof.
  intros Hne. unfold group. induction s as [|p s IH]; [reflexivity|].
  simpl. destruct (K_eqb (key (fst p)) k) eqn:E; simpl.
  - apply K_eqb_eq in E.
    destruct (K_eqb (key (fst p)) k') eqn:E'; [|exact IH].
    apply K_eqb_eq in E'. congruence.
  - now rewrite IH.
Qed.

(** The groups of distinct labels that cover the labels of a series hold
    every slice of the series once. *)
Lemma groups_partition (ks : list K) :
  NoDup ks ->
  forall s : Series,
    (forall p, In p s -> In (key (fst p)) ks) ->
    Permutation (flat_map (fun k => group K_eqb key k s) ks) s.
Proof.
  induction 1 as [|k ks Hk Hnd IH]; intros s Hs.
  - destruct s as [|p s]; [constructor|]. destruct (Hs p (or_introl eq_refl)).
  - simpl.
    set (rest := filter (fun p => negb (K_eqb (key (fst p)) k)) s).
    assert (E : flat_map (fun k' => group K_eqb key k' s) ks
                = flat_map (fun k' => group K_eqb key k' rest) ks).
    { rewrite !flat_map_concat_map. f_equal. apply map_ext_in.
      intros k' Hk'. symmetry. apply group_other. intros ->. contradiction. }
    rewrite E.
    apply Permutation_trans with (group K_eqb key k s ++ rest);
      [|apply filter_split].
    apply Permutation_app_head. apply IH.
    intros p Hp. apply filter_In in Hp. destruct Hp as [Hp Hneg].
    cbv beta in Hneg.
    destruct (Hs p Hp) as [Ek|Hin]; [|exact Hin].
    rewrite <- Ek, (proj2 (K_eqb_eq k k) eq_refl) in Hneg. discriminate Hneg.
Qed.

Lemma groupby_partition (s : Series) :
  Permutation (flat_map (fun k => group K_eqb key k s)
                        (map fst (groupby_sum K_eqb K_leb key s)))
              s.
Proof.
  rewrite groupby_keys. apply groups_partition.
  - now apply unique_NoDup.
  - intros p Hp. apply (unique_In K_eqb K_leb K_eqb_eq).
    unfold labels. apply in_map_iff. now exists p.
Qed.

Lemma groupby_sum_In (s : Series) (k : K) (f : Field) :
  In (k, f) (groupby_sum K_eqb K_leb key s) ->
  f = sum_tdim (filter (fun p => K_eqb (key (fst p)) k) s).
Proof.
  unfold groupby_sum. intros H. apply in_map_iff in H.
  destruct H as (k' & E & _). now inversion E.
Qed.

End Partition.

(** C6 (amended).  The calendar-month grouping and the season grouping each
    partition the series of the numerator, and of the denominator, without
    overlap: the groups, taken in the order of the output, hold every time
    step once, and the total of a group at a cell is the sum, in the order
    of time, of the terms of the time steps that carry its label.  Over the
    complete window of 432 months the groups are the 12 calendar months, of
    36 time steps each, and the 4 seasons, of 108 time steps each.  The
    totals of the groups and the annual total are then sums of the same
    terms in different orders. *)
Theorem C6_partition (obs_da model_da : Series) (o_mean : Field) (s : Series) :
  s = MEF_num obs_da model_da \/ s = MEF_den obs_da o_mean ->
  (Permutation (flat_map (fun k => group Nat.eqb by_month k s)
                         (map fst (groupby_sum Nat.eqb Nat.leb by_month s)))
               s
   /\ Permutation (flat_map (fun k => group String.eqb by_season k s)
                            (map fst (groupby_sum String.eqb String.leb by_season s)))
                  s)
  /\ (forall k f y x,
        In (k, f) (groupby_sum Nat.eqb Nat.leb by_month s) ->
        f y x = F64.nansum (map (fun p => snd p y x)
                                (filter (fun p => month (fst p) =? k) s)))
  /\ (forall k f y x,
        In (k, f) (groupby_sum String.eqb String.leb by_season s) ->
        f y x = F64.nansum (map (fun p => snd p y x)
                                (filter (fun p => String.eqb (by_season (fst p)) k) s)))
  /\ (map fst obs_da = fixed_window -> length model_da = 432 ->
      map fst (groupby_sum Nat.eqb Nat.leb by_month s) = seq 1 12
      /\ map fst (groupby_sum String.eqb String.leb by_season s)
         = ["DJF"; "JJA"; "MAM"; "SON"]%string
      /\ (forall k, In k (seq 1 12) -> length (group Nat.eqb by_month k s) = 36)
      /\ (forall k, In k ["DJF"; "JJA"; "MAM"; "SON"]%string ->
            length (group String.eqb by_season k s) = 108)).
Proof.
  intros Hs. split; [|split; [|split]].
  - split.
    + apply (groupby_partition Nat.eqb Nat.leb by_month Nat.eqb_eq).
    + apply (groupby_partition String.eqb String.leb by_season String.eqb_eq).
  - intros k f y x Hin.
    now rewrite (groupby_sum_In Nat.eqb Nat.leb by_month s k f Hin).
  - intros k f y x Hin.
    now rewrite (groupby_sum_In String.eqb String.leb by_season s k f Hin).
  - intros Hobs Hlen. apply window_groups.
    destruct Hs as [-> | ->]; unfold MEF_num, MEF_den.
    + rewrite fst_zip_series; [exact Hobs|].
      rewrite Hlen, <- window_length, <- Hobs. now rewrite length_map.
    + now rewrite fst_broadcast.
Qed.

Lemma C6_partition_witness :
  map fst (groupby_sum Nat.eqb Nat.leb by_month (MEF_num obs432 model432)) = seq 1 12
  /\ (forall k, In k (seq 1 12) ->
        length (group Nat.eqb by_month k (MEF_num obs432 model432)) = 36).
Proof.
  destruct (C6_partition obs432 model432 (mean_tdim obs432) (MEF_num obs432 model432)
              (or_introl eq_refl)) as (_ & _ & _ & H).
  assert (Hobs : map fst obs432 = fixed_window) by (vm_compute; reflexivity).
  assert (Hlen : length model432 = 432) by (vm_compute; reflexivity).
  destruct (H Hobs Hlen) as (Hm & _ & Hk & _).
  split; assumption.
Defined.

(** C6, as stated, fails: on binary64 numbers, over the complete window with
    observations [month/20] and a model [(year - 1970)/50], the annual
    numerator of the cell is 49.788000000000011, the twelve month totals
    add up to 49.787999999999982 and the four season totals to
    49.78799999999999. *)
Lemma C6_counterexample :
  let num := B64.MEF_num B64.obs432 B64.model432 in
  B64.sum_tdim num 0 0 = 0x1.8e4dd2f1a9fcp+5%float
  /\ B64.group_total (B64.groupby_sum Nat.eqb Nat.leb by_month num) 0 0
     <> B64.sum_tdim num 0 0
  /\ B64.group_total (B64.groupby_sum String.eqb String.leb by_season num) 0 0
     <> B64.sum_tdim num 0 0.
Proof.
  intros num. split; [vm_compute; reflexivity|].
  split; intros H;
    apply (f_equal (fun a => PrimFloat.eqb a 0x1.8e4dd2f1a9fcp+5%float)) in H;
    vm_compute in H; discriminate H.
Qed.

(** ** Cells masked by the count of valid observations *)(** ** Cells masked by the count of valid observations *)

Lemma mul_nan_r (a : f64) : F64.mul a F64.NaN = F64.NaN.
Proof. now destruct a. Qed.

Lemma quality_control_masked (obs_ds : Series) (y x : nat) :
  count (flag_obs obs_ds) y x <= 20 ->
  Forall (fun a => a = F64.NaN) (cell (quality_control obs_ds) y x).
Proof.
  intros H. unfold quality_control. rewrite cell_broadcast.
  apply Forall_map, Forall_forall. intros u _.
  unfold mincount. apply Nat.leb_le in H. rewrite H. apply mul_nan_r.
Qed.

Lemma apply_variation_nan (v : variation) (s : Series) (y x : nat) :
  Forall (fun a => a = F64.NaN) (cell s y x) ->
  Forall (fun a => a = F64.NaN) (cell (apply_variation v s) y x).
Proof.
  intros H.
  assert (G : Forall (fun a => a = F64.NaN)
                (cell (map_series (fun a => F64.where_ (variation_cond v a) a) s) y x)).
  { rewrite cell_map_series. apply Forall_map.
    eapply Forall_impl; [|exact H]. simpl. intros a ->.
    now destruct (variation_cond v F64.NaN). }
  destruct v; simpl; assumption.
Qed.

Lemma in_combine_fst {A B : Type} (a : list A) (b : list B) (uv : A * B) :
  In uv (combine a b) -> In (fst uv) a.
Proof. destruct uv as [u v]. apply in_combine_l. Qed.


(** Where the observations of a cell are all not-a-number, so are the terms
    of the numerator and of the denominator. *)
Lemma masked_obs_num (obs_da model_da : Series) (y x : nat) :
  Forall (fun a => a = F64.NaN) (cell obs_da y x) ->
  Forall (fun a => a = F64.NaN) (cell (MEF_num obs_da model_da) y x).
Proof.
  intros H. unfold MEF_num. rewrite cell_zip_series, Forall_map, Forall_forall.
  intros uv Huv. apply in_combine_fst in Huv.
  rewrite Forall_forall in H. now rewrite (H _ Huv).
Qed.

Lemma masked_obs_den (obs_da : Series) (o_mean : Field) (y x : nat) :
  Forall (fun a => a = F64.NaN) (cell obs_da y x) ->
  Forall (fun a => a = F64.NaN) (cell (MEF_den obs_da o_mean) y x).
Proof.
  intros H. unfold MEF_den. rewrite cell_broadcast, Forall_map.
  eapply Forall_impl; [|exact H]. simpl. now intros a ->.
Qed.

Lemma masked_sum (c : date * Field -> bool) (s : Series) (y x : nat) :
  Forall (fun a => a = F64.NaN) (cell s y x) ->
  sum_tdim (filter c s) y x = F64.zero.
Proof.
  intros H. unfold sum_tdim. now apply F64Facts.nansum_all_nan, cell_filter.
Qed.

(** The three per-cell outputs at a cell without any valid observation. *)
Lemma masked_obs_metrics (obs_da model_da : Series) (o_mean : Field) (y x : nat) :
  Forall (fun a => a = F64.NaN) (cell obs_da y x) ->
  MEF_a obs_da model_da o_mean y x = F64.NaN
  /\ (forall k f, In (k, f) (MEF_m obs_da model_da o_mean) -> f y x = F64.NaN)
  /\ (forall k f, In (k, f) (MEF_s obs_da model_da o_mean) -> f y x = F64.NaN).
Proof.
  intros H.
  pose proof (masked_obs_num obs_da model_da y x H) as Hn.
  pose proof (masked_obs_den obs_da o_mean y x H) as Hd.
  split; [|split].
  - unfold MEF_a.
    rewrite <- (filter_all (MEF_num obs_da model_da)),
            <- (filter_all (MEF_den obs_da o_mean)).
    now rewrite (masked_sum _ _ _ _ Hn), (masked_sum _ _ _ _ Hd).
  - intros k f Hin. rewrite (MEF_m_groups _ _ _ _ _ Hin). unfold group.
    now rewrite (masked_sum _ _ _ _ Hn), (masked_sum _ _ _ _ Hd).
  - intros k f Hin. rewrite (MEF_s_groups _ _ _ _ _ Hin). unfold group.
    now rewrite (masked_sum _ _ _ _ Hn), (masked_sum _ _ _ _ Hd).
Qed.

(** C8.  A cell with at most 20 observations above zero over the window is
    not-a-number in the whole observation series, whatever the variation;
    its climatological mean is not-a-number, and so is its value in the
    annual, the monthly and the seasonal output of every model. *)
Theorem C8_count_threshold (v : variation) (raw : Series) (y x : nat) :
  count (flag_obs (sel_slice window_lo window_hi raw)) y x <= 20 ->
  Forall (fun a => a = F64.NaN) (cell (obs_da (observation_baseline v raw)) y x)
  /\ o_mean (observation_baseline v raw) y x = F64.NaN
  /\ forall model_da : Series,
      let b := observation_baseline v raw in
      MEF_a (obs_da b) model_da (o_mean b) y x = F64.NaN
      /\ (forall k f, In (k, f) (MEF_m (obs_da b) model_da (o_mean b)) -> f y x = F64.NaN)
      /\ (forall k f, In (k, f) (MEF_s (obs_da b) model_da (o_mean b)) -> f y x = F64.NaN).
Proof.
  intros H.
  pose proof (quality_control_masked _ y x H) as Hqc.
  assert (Hobs : Forall (fun a => a = F64.NaN)
                   (cell (obs_da (observation_baseline v raw)) y x))
    by (now apply apply_variation_nan).
  split; [exact Hobs|]. split.
  - simpl. unfold mean_tdim. now apply F64Facts.nanmean_all_nan.
  - intros model_da b. now apply masked_obs_metrics.
Qed.

Lemma C8_count_threshold_witness :
  o_mean (observation_baseline I80100 obs24_sparse) 0 0 = F64.NaN
  /\ MEF_a (obs_da (observation_baseline I80100 obs24_sparse)) model24
           (o_mean (observation_baseline I80100 obs24_sparse)) 0 0 = F64.NaN.
Proof.
  assert (H : count (flag_obs (sel_slice window_lo window_hi obs24_sparse)) 0 0 <= 20)
    by (apply Nat.leb_le; vm_compute; reflexivity).
  destruct (C8_count_threshold I80100 obs24_sparse 0 0 H) as (_ & Hm & Ha).
  split; [exact Hm | exact (proj1 (Ha model24))].
Defined.

(** ** The normalisation of a model *)

Lemma setitem_app {A : Type} (pre rest : list A) (a b : A) :
  setitem (pre ++ a :: rest) (length pre) b = pre ++ b :: rest.
Proof. induction pre as [|h pre IH]; simpl; [reflexivity | now rewrite IH]. Qed.

Lemma nth_error_middle {A : Type} (pre rest : list A) (a : A) :
  nth_error (pre ++ a :: rest) (length pre) = Some a.
Proof. induction pre as [|h pre IH]; simpl; [reflexivity | exact IH]. Qed.

(** The loop that overlays the mask multiplies every slice by the mask. *)
Lemma overlay_loop (mask : Field) (pre rest : list Field) :
  let g := fun (f : Field) => (fun y x => F64.mul (f y x) (mask y x)) : Field in
  fold_left (fun sic i => overlay_step mask i sic)
            (seq (length pre) (length rest)) (map g pre ++ rest)
  = map g pre ++ map g rest.
Proof.
  intros g. revert pre. induction rest as [|f rest IH]; intros pre; [reflexivity|].
  simpl. unfold overlay_step at 2.
  rewrite <- (length_map g pre), nth_error_middle, setitem_app, length_map.
  specialize (IH (pre ++ [f])).
  rewrite length_app, Nat.add_1_r, map_app, <- !app_assoc in IH. exact IH.
Qed.

Lemma overlay_mask_siconc (mask : Field) (ny nx : nat) (sic_bil : Series) :
  XR.siconc (overlay_mask mask (XR.of_siconc ny nx sic_bil))
  = map (fun (f : Field) => (fun y x => F64.mul (f y x) (mask y x)) : Field)
        (map snd sic_bil).
Proof.
  unfold overlay_mask, XR.of_siconc. simpl.
  rewrite length_map, <- (length_map snd sic_bil).
  apply (overlay_loop mask [] (map snd sic_bil)).
Qed.


(** [assign_coords] and the two [swap_dims] on a dataset whose [siconc] has
    [n] time steps, towards a time coordinate of length [m]: the first
    [swap_dims] finds two lengths for the dimension [time] unless [n = m]. *)
Lemma relabel {B : Type} (ds : XR.Dataset) (n ny nx : nat) (obs_ds_time : list date)
  (k : XR.Dataset -> result B) :
  XR.variables ds
  = [("siconc", [("time", n); ("y", ny); ("x", nx)]); ("time", [("time", n)])]%string ->
  (d1 <- XR.assign_coords_time ds obs_ds_time ;;
   d2 <- XR.swap_dims d1 "tdim" "time" ;;
   d3 <- XR.swap_dims d2 "time" "tdim" ;;
   k d3)
  = if n =? length obs_ds_time
    then k {| XR.variables := XR.relabelled n ny nx (length obs_ds_time);
              XR.siconc := XR.siconc ds; XR.time := obs_ds_time |}
    else Error (ValueError "conflicting sizes for dimension").
Proof.
  intros Hv. unfold XR.assign_coords_time, XR.swap_dims, XR.calculate_dimensions.
  rewrite Hv.
  destruct (n =? length obs_ds_time) eqn:E; cbn;
    repeat (first [rewrite Nat.eqb_refl | rewrite E]; cbn); reflexivity.
Qed.

Lemma fst_combine {A B : Type} (a : list A) (b : list B) :
  length a = length b -> map fst (combine a b) = a.
Proof.
  revert b. induction a as [|u a IH]; intros [|v b] H; simpl in *;
    try reflexivity; try discriminate.
  f_equal. apply IH. now inversion H.
Qed.

(** ** Loops that append *)

(** A loop whose body appends one element at each index appends, in the order
    of the indices, one element for each of them. *)
Lemma for_range_append {A : Type} (body : nat -> list A -> result (list A))
  (R : nat -> A -> Prop) :
  (forall j acc acc', body j acc = Ok acc' -> exists a, acc' = acc ++ [a] /\ R j a) ->
  forall js acc r,
    for_range body js acc = Ok r ->
    exists new, r = acc ++ new /\ Forall2 R js new.
Proof.
  intros Hbody. induction js as [|j js IH]; intros acc r H; simpl in H.
  - inversion H. exists []. split; [now rewrite app_nil_r | constructor].
  - destruct (body j acc) as [acc'|e] eqn:E; [|discriminate].
    simpl in H. destruct (Hbody _ _ _ E) as (a & -> & Ha).
    destruct (IH _ _ H) as (new & -> & Hnew).
    exists (a :: new). split; [now rewrite <- app_assoc | now constructor].
Qed.

Lemma Forall2_seq_nth {A : Type} (R : nat -> A -> Prop) (new : list A) (s n : nat) :
  Forall2 R (seq s n) new ->
  length new = n /\ forall j a, nth_error new j = Some a -> R (s + j) a.
Proof.
  revert s new. induction n as [|n IH]; intros s new H; simpl in H.
  - inversion H. split; [reflexivity|]. intros [|j] a Hj; discriminate.
  - inversion H as [|? a0 ? new' Ha Hrest]. subst.
    destruct (IH _ _ Hrest) as [Hlen Hnth]. split; [simpl; now rewrite Hlen|].
    intros [|j] a Hj; simpl in Hj.
    + inversion Hj. subst. now rewrite Nat.add_0_r.
    + rewrite <- Nat.add_succ_comm. now apply Hnth.
Qed.

Lemma Forall2_nth {A B : Type} (R : A -> B -> Prop) (a : list A) (b : list B) :
  length a = length b ->
  (forall j u v, nth_error a j = Some u -> nth_error b j = Some v -> R u v) ->
  Forall2 R a b.
Proof.
  revert b. induction a as [|u a IH]; intros [|v b] Hlen H; simpl in *;
    try discriminate; constructor.
  - now apply (H 0).
  - apply IH; [now inversion Hlen|].
    intros j u' v' Hu Hv. now apply (H (S j)).
Qed.

Lemma Forall2_in_l {A B : Type} (R : A -> B -> Prop) (a : list A) (b : list B) (u : A) :
  Forall2 R a b -> In u a -> exists v, In v b /\ R u v.
Proof.
  induction 1 as [|u0 v0 a b H0 _ IH]; intros Hin; [destruct Hin|].
  destruct Hin as [<-|Hin].
  - exists v0. split; [now left | exact H0].
  - destruct (IH Hin) as (v & Hv & HR). exists v. split; [now right | exact HR].
Qed.


Lemma index_Ok {A : Type} (l : list A) (i : nat) (a : A) :
  index l i = Ok a -> nth_error l i = Some a.
Proof. unfold index. destruct (nth_error l i); now inversion 1. Qed.

Lemma bind_Ok {A B : Type} (c : result A) (k : A -> result B) (b : B) :
  (x <- c ;; k x) = Ok b -> exists a, c = Ok a /\ k a = Ok b.
Proof. destruct c as [a|e]; simpl; [now exists a | discriminate]. Qed.

(** ** Cells where the model is masked *)




(** ** The loop over the models *)

Section LoopFacts.

Variable subset_bbox : RefDataset -> Z * Z -> Z * Z -> Grid.
Variable regrid : Regridder -> Field -> Field.

Lemma normalise_on_cases (ds_tgt : Grid) (mask : Field) (obs_ds_time : list date)
  (model_ds : ModelDataset) :
  normalise_on regrid ds_tgt mask obs_ds_time model_ds
  = if length (sel_slice window_lo window_hi (model_siconc model_ds))
         =? length obs_ds_time
    then Ok (map_series (fun a => F64.div a (dec 100 1))
               (combine obs_ds_time (masked_slices regrid ds_tgt mask model_ds)))
    else Error (ValueError "conflicting sizes for dimension").
Proof.
  unfold normalise_on.
  rewrite (relabel _ (length (sel_slice window_lo window_hi (model_siconc model_ds)))
             (g_ny ds_tgt) (g_nx ds_tgt)).
  - destruct (_ =? _); [|reflexivity].
    cbn [XR.time XR.siconc]. rewrite overlay_mask_siconc.
    unfold masked_slices. now rewrite !map_map.
  - unfold overlay_mask, XR.of_siconc. cbn [XR.variables].
    unfold map_series. now rewrite !length_map.
Qed.

(** A model of the right length is normalised, slice by slice under the
    labels of the observations. *)
Lemma normalise_on_ok (ds_tgt : Grid) (mask : Field) (obs_ds_time : list date)
  (model_ds : ModelDataset) (model_da : Series) :
  normalise_on regrid ds_tgt mask obs_ds_time model_ds = Ok model_da ->
  length (sel_slice window_lo window_hi (model_siconc model_ds)) = length obs_ds_time
  /\ model_da = map_series (fun a => F64.div a (dec 100 1))
                  (combine obs_ds_time (masked_slices regrid ds_tgt mask model_ds)).
Proof.
  rewrite normalise_on_cases.
  destruct (_ =? _) eqn:E; [|discriminate].
  intros H. inversion H. split; [now apply Nat.eqb_eq | reflexivity].
Qed.

Lemma normalise_on_labels (ds_tgt : Grid) (mask : Field) (obs_ds_time : list date)
  (model_ds : ModelDataset) (model_da : Series) :
  normalise_on regrid ds_tgt mask obs_ds_time model_ds = Ok model_da ->
  map fst model_da = obs_ds_time.
Proof.
  intros H. destruct (normalise_on_ok _ _ _ _ _ H) as [Hlen ->].
  unfold map_series. rewrite map_map. simpl. apply fst_combine.
  unfold masked_slices, map_series. rewrite !length_map. now symmetry.
Qed.


Lemma source_id_loop (g : Globals) (source_id : list string) :
  for_range (source_id_body g) (seq 0 (lct g)) [] = Ok source_id ->
  length source_id = lct g
  /\ forall j name, nth_error source_id j = Some name ->
       exists key, nth_error (mlist g) j = Some key
                   /\ nth_error (split "." key) 2 = Some name.
Proof.
  intros H.
  apply (for_range_append _
           (fun j name => exists key, nth_error (mlist g) j = Some key
                                      /\ nth_error (split "." key) 2 = Some name)) in H.
  - destruct H as (new & -> & H). simpl. now apply Forall2_seq_nth in H.
  - intros j acc acc' E. unfold source_id_body in E.
    apply bind_Ok in E. destruct E as (key & Hkey & E).
    apply bind_Ok in E. destruct E as (mod_id & Hid & E).
    inversion E. exists mod_id. split; [reflexivity|].
    exists key. split; now apply index_Ok.
Qed.

Lemma MEF_loop (g : Globals) (source_id : list string) (MEF : list MetricSet) :
  for_range (MEF_body subset_bbox regrid g source_id) (seq 0 (lct g)) [] = Ok MEF ->
  length MEF = lct g
  /\ forall j ms, nth_error MEF j = Some ms ->
       exists key model_ds model_da name,
         nth_error (mlist g) j = Some key
         /\ getitem (ddict g) key = Ok model_ds
         /\ nth_error source_id j = Some name
         /\ normalise_on regrid (target subset_bbox (ref_ds g)) (mask_of (ref_ds g))
                         (obs_time (base g)) model_ds = Ok model_da
         /\ ms = metrics (target subset_bbox (ref_ds g)) (obs_shape g) (base g) model_da name.
Proof.
  intros H.
  apply (for_range_append _
           (fun j ms => exists key model_ds model_da name,
              nth_error (mlist g) j = Some key
              /\ getitem (ddict g) key = Ok model_ds
              /\ nth_error source_id j = Some name
              /\ normalise_on regrid (target subset_bbox (ref_ds g)) (mask_of (ref_ds g))
                              (obs_time (base g)) model_ds = Ok model_da
              /\ ms = metrics (target subset_bbox (ref_ds g)) (obs_shape g) (base g) model_da name)) in H.
  - destruct H as (new & -> & H). simpl. now apply Forall2_seq_nth in H.
  - intros j acc acc' E. unfold MEF_body in E.
    apply bind_Ok in E. destruct E as (key & Hkey & E).
    apply bind_Ok in E. destruct E as (model_ds & Hds & E).
    apply bind_Ok in E. destruct E as (name & Hname & E).
    apply bind_Ok in E. destruct E as (model_da & Hda & E).
    inversion E. eexists. split; [reflexivity|].
    exists key, model_ds, model_da, name.
    repeat split; try assumption; now apply index_Ok.
Qed.

(** A run that completes has made, in the order of [mlist], one dataset of
    each model of the dictionary. *)
Lemma run_produces (g : Globals) (combined : list MetricSet) :
  run subset_bbox regrid g = Ok combined ->
  Forall2 (produced subset_bbox regrid g) (mlist g) combined.
Proof.
  unfold run. intros H.
  apply bind_Ok in H. destruct H as (source_id & Hsid & H).
  apply bind_Ok in H. destruct H as (MEF & HMEF & H).
  assert (combined = MEF) by (destruct MEF; simpl in H; now inversion H). subst.
  destruct (source_id_loop _ _ Hsid) as [Hlen1 Hnth1].
  destruct (MEF_loop _ _ _ HMEF) as [Hlen2 Hnth2].
  apply Forall2_nth; [now rewrite Hlen2|].
  intros j key ms Hkey Hms.
  destruct (Hnth2 _ _ Hms) as (key' & model_ds & model_da & name & Hk & Hd & Hn & Hnorm & ->).
  assert (key' = key) by congruence. subst key'.
  destruct (Hnth1 _ _ Hn) as (key' & Hk' & Hsplit).
  assert (key' = key) by congruence. subst key'.
  exists model_ds, model_da, name. repeat split; assumption.
Qed.

(** C4.  A model of the dictionary whose series, once sliced to the window,
    has not the length of the time coordinate of the observations is not
    normalised: the re-labelling of its time axis raises [ValueError] (the
    dimension [time] would have two lengths), whatever the target grid and
    the mask; nothing is truncated, padded or shifted, and the run aborts. *)
Theorem C4_time_length_mismatch (g : Globals) (key : string)
  (model_ds : ModelDataset) :
  In key (mlist g) ->
  getitem (ddict g) key = Ok model_ds ->
  length (sel_slice window_lo window_hi (model_siconc model_ds))
  <> length (obs_time (base g)) ->
  (forall ds_tgt mask, exists msg,
      normalise_on regrid ds_tgt mask (obs_time (base g)) model_ds
      = Error (ValueError msg))
  /\ exists e, run subset_bbox regrid g = Error e.
Proof.
  intros Hkey Hds Hlen. apply Nat.eqb_neq in Hlen. split.
  - intros ds_tgt mask. rewrite normalise_on_cases, Hlen. now eexists.
  - destruct (run subset_bbox regrid g) as [combined|e] eqn:E; [|now exists e].
    exfalso. apply run_produces in E.
    destruct (Forall2_in_l _ _ _ _ E Hkey) as (ms & _ & Hp).
    destruct Hp as (model_ds' & model_da & name & Hds' & _ & Hnorm & _).
    assert (model_ds' = model_ds) by congruence. subst model_ds'.
    rewrite normalise_on_cases, Hlen in Hnorm. discriminate Hnorm.
Qed.


End LoopFacts.

(** ** Concrete runs *)

Lemma C4_time_length_mismatch_witness :
  (exists msg,
      normalise_on nearest (target whole_grid ref_ocean) (mask_of ref_ocean)
                   (obs_time (base globals_short)) model_short
      = Error (ValueError msg))
  /\ exists e, run whole_grid nearest globals_short = Error e.
Proof.
  destruct (C4_time_length_mismatch whole_grid nearest globals_short
              "HighResMIP.MOHC.HadGEM3-GC31-LL.hist-1950.SImon.gn" model_short)
    as [Hn Hr].
  - vm_compute. right. left. reflexivity.
  - reflexivity.
  - vm_compute. intros H. discriminate H.
  - split; [apply Hn | exact Hr].
Defined.



(** ** The annual metric of a run *)







(** ** The mean and the variations *)

(** C2.  The code takes the mean before the variation: for every variation
    the mean used in the denominators is the mean of the series as it is
    before the line of cell 3b applies.  With the variation I80100 on two
    years of observations 0.5 and 0.9 in turn, the mean used is 0.7, while
    the mean of the filtered series is 0.9. *)
Theorem C2_mean_precedes_variation :
  (forall v raw,
      o_mean (observation_baseline v raw)
      = mean_tdim (quality_control (sel_slice window_lo window_hi raw)))
  /\ o_mean (observation_baseline I80100 obs24) 0 0 = dec 7 10
  /\ mean_tdim (obs_da (observation_baseline I80100 obs24)) 0 0 = dec 9 10
  /\ dec 7 10 <> dec 9 10.
Proof.
  split; [reflexivity|]. split; [|split].
  - apply F64Facts.same_eq. vm_compute. reflexivity.
  - apply F64Facts.same_eq. vm_compute. reflexivity.
  - intros H. apply (f_equal (fun a => F64.same a (dec 9 10))) in H.
    vm_compute in H. discriminate H.
Qed.

(** * Further properties of the code *)

(** ** Catalogue keys and the names of the models *)

Lemma split_nonempty (sep : ascii) (s : string) : split sep s <> [].
Proof.
  induction s as [|c s IH]; simpl; [discriminate|].
  destruct (Ascii.eqb c sep); [discriminate|].
  destruct (split sep s); [contradiction | discriminate].
Qed.

Lemma split_no_sep (sep : ascii) (s : string) :
  contains sep s = false -> split sep s = [s].
Proof.
  induction s as [|c s IH]; simpl; [reflexivity|].
  destruct (Ascii.eqb c sep); simpl; [discriminate|].
  intros H. now rewrite (IH H).
Qed.

Lemma split_app_sep (sep : ascii) (p rest : string) :
  contains sep p = false ->
  split sep (p ++ String sep rest) = p :: split sep rest.
Proof.
  induction p as [|c p IH]; simpl.
  - intros _. now rewrite Ascii.eqb_refl.
  - destruct (Ascii.eqb c sep); simpl; [discriminate|].
    intros H. now rewrite (IH H).
Qed.

(** X1.  Splitting a key at the dots and joining the pieces with dots gives
    the key back; and the pieces of a key joined from facets that hold no
    dot are these facets, so that the name the loop takes, [name[2]], is the
    third facet, the [source_id]. *)
Theorem X1_split_join :
  (forall sep s, join sep (split sep s) = s)
  /\ (forall sep parts,
        parts <> [] ->
        Forall (fun p => contains sep p = false) parts ->
        split sep (join sep parts) = parts)
  /\ (forall a b c rest,
        Forall (fun p => contains "." p = false) (a :: b :: c :: rest) ->
        index (split "." (join "." (a :: b :: c :: rest))) 2 = Ok c).
Proof.
  assert (H2 : forall sep parts,
             parts <> [] ->
             Forall (fun p => contains sep p = false) parts ->
             split sep (join sep parts) = parts).
  { intros sep parts. induction parts as [|p ps IH]; intros Hne Hall; [contradiction|].
    inversion Hall as [|? ? Hp Hps]. subst.
    destruct ps as [|p' ps].
    - simpl. now apply split_no_sep.
    - change (join sep (p :: p' :: ps))
        with (p ++ String sep (join sep (p' :: ps)))%string.
      rewrite (split_app_sep _ _ _ Hp). f_equal. apply IH; [discriminate | exact Hps]. }
  split; [|split; [exact H2|]].
  - intros sep s. induction s as [|c s IH]; [reflexivity|].
    simpl. destruct (Ascii.eqb c sep) eqn:E.
    + apply Ascii.eqb_eq in E. subst c.
      pose proof (split_nonempty sep s) as Hne.
      destruct (split sep s) as [|q qs] eqn:Es; [contradiction|].
      change (join sep (EmptyString :: q :: qs))
        with (EmptyString ++ String sep (join sep (q :: qs)))%string.
      rewrite IH. reflexivity.
    + pose proof (split_nonempty sep s) as Hne.
      destruct (split sep s) as [|q qs] eqn:Es; [contradiction|].
      rewrite <- IH. destruct qs as [|q' qs]; reflexivity.
  - intros a b c rest Hall. rewrite H2; [reflexivity | discriminate | exact Hall].
Qed.

Lemma X1_split_join_witness :
  index (split "." (join "." ["HighResMIP"; "MOHC"; "HadGEM3-GC31-LL";
                              "hist-1950"; "SImon"; "gn"]%string)) 2
  = Ok "HadGEM3-GC31-LL"%string.
Proof.
  apply (proj2 (proj2 X1_split_join)).
  repeat constructor.
Defined.

(** ** When the loops complete *)

Lemma for_range_total {S : Type} (body : nat -> S -> result S) (js : list nat) :
  (forall j, In j js -> forall s, exists s', body j s = Ok s') ->
  forall s, exists r, for_range body js s = Ok r.
Proof.
  induction js as [|j js IH]; intros H s; simpl.
  - now exists s.
  - destruct (H j (or_introl eq_refl) s) as (s' & ->). simpl.
    apply IH. intros j' Hj'. apply H. now right.
Qed.

Lemma for_range_error {S : Type} (body : nat -> S -> result S) (js : list nat)
  (s : S) (e : exn) :
  for_range body js s = Error e ->
  exists j s', In j js /\ body j s' = Error e.
Proof.
  revert s. induction js as [|j js IH]; intros s H; simpl in H; [discriminate|].
  destruct (body j s) as [s'|e'] eqn:E; simpl in H.
  - destruct (IH _ H) as (j' & s'' & Hin & Hb). exists j', s''. split; [now right | exact Hb].
  - inversion H. subst. exists j, s. split; [now left | exact E].
Qed.

Lemma getitem_In {A : Type} (d : list (string * A)) (key : string) (a : A) :
  getitem d key = Ok a -> In (key, a) d.
Proof.
  induction d as [|[k a'] d IH]; simpl; [discriminate|].
  destruct (String.eqb k key) eqn:E.
  - apply String.eqb_eq in E. subst. intros H. inversion H. now left.
  - intros H. right. now apply IH.
Qed.

Lemma getitem_NoDup {A : Type} (d : list (string * A)) (key : string) (a : A) :
  NoDup (keys d) -> In (key, a) d -> getitem d key = Ok a.
Proof.
  induction d as [|[k a'] d IH]; simpl; [contradiction|].
  intros Hnd Hin. inversion Hnd as [|? ? Hk Hnd']. subst.
  destruct Hin as [E|Hin].
  - inversion E. subst. now rewrite String.eqb_refl.
  - destruct (String.eqb k key) eqn:E.
    + apply String.eqb_eq in E. subst. exfalso. apply Hk.
      unfold keys. apply in_map_iff. now exists (key, a).
    + now apply IH.
Qed.

Lemma index_lt {A : Type} (l : list A) (i : nat) :
  i < length l -> exists a, index l i = Ok a /\ nth_error l i = Some a.
Proof.
  intros H. unfold index. destruct (nth_error l i) as [a|] eqn:E.
  - now exists a.
  - apply nth_error_None in E. lia.
Qed.

Lemma Forall2_functional {A B : Type} (R : A -> B -> Prop) (l : list A) (a b : list B) :
  (forall u v w, R u v -> R u w -> v = w) ->
  Forall2 R l a -> Forall2 R l b -> a = b.
Proof.
  intros Hf H. revert b. induction H as [|u v l a Huv _ IH]; intros b Hb;
    inversion Hb; subst; [reflexivity|].
  f_equal; [now apply (Hf u) | now apply IH].
Qed.

Lemma source_id_error (g : Globals) (k : nat) (acc : list string) (e : exn) :
  source_id_body g k acc = Error e -> e = IndexError.
Proof.
  unfold source_id_body, index, bind.
  destruct (nth_error (mlist g) k) as [key|];
    [|intros H; inversion H; reflexivity].
  destruct (nth_error (split "." key) 2); intros H; inversion H; reflexivity.
Qed.

Section RunMore.

Variable subset_bbox : RefDataset -> Z * Z -> Z * Z -> Grid.
Variable regrid : Regridder -> Field -> Field.

(** X2.  The first loop gives the third component of every key, in the order
    of the keys, when every key has one; a key with fewer than three
    components makes it raise [IndexError], and the run with it, before any
    model is processed. *)
Theorem X2_source_id_loop (g : Globals) :
  (forall names,
      Forall2 (fun key name => nth_error (split "." key) 2 = Some name)
              (mlist g) names ->
      for_range (source_id_body g) (seq 0 (lct g)) [] = Ok names)
  /\ (forall key,
        In key (mlist g) ->
        nth_error (split "." key) 2 = None ->
        for_range (source_id_body g) (seq 0 (lct g)) [] = Error IndexError
        /\ run subset_bbox regrid g = Error IndexError).
Proof.
  split.
  - intros names Hn.
    destruct (for_range_total (source_id_body g) (seq 0 (lct g))) with (s := @nil string)
      as (sid & Hsid).
    { intros j Hj acc. apply in_seq in Hj. unfold source_id_body.
      destruct (index_lt (mlist g) j) as (key & -> & Hkey); [unfold lct in Hj; lia|].
      simpl. destruct (Forall2_in_l _ _ _ _ Hn (nth_error_In _ _ Hkey)) as (name & _ & Hname).
      unfold index. rewrite Hname. simpl. now eexists. }
    rewrite Hsid. f_equal.
    destruct (source_id_loop _ _ Hsid) as [Hlen Hnth].
    apply (Forall2_functional
             (fun key name => nth_error (split "." key) 2 = Some name) (mlist g));
      [congruence | | exact Hn].
    apply Forall2_nth; [now rewrite Hlen|].
    intros j key name Hkey Hname.
    destruct (Hnth _ _ Hname) as (key' & Hkey' & Hs). congruence.
  - intros key Hin Hnone.
    assert (Hloop : for_range (source_id_body g) (seq 0 (lct g)) [] = Error IndexError).
    { destruct (for_range (source_id_body g) (seq 0 (lct g)) []) as [sid|e] eqn:E.
      - exfalso. destruct (source_id_loop _ _ E) as [Hlen Hnth].
        destruct (In_nth_error _ _ Hin) as (j & Hj).
        assert (Hlt : j < length sid).
        { rewrite Hlen. unfold lct. apply nth_error_Some. congruence. }
        destruct (nth_error sid j) as [name|] eqn:En;
          [|apply nth_error_None in En; lia].
        destruct (Hnth _ _ En) as (key' & Hkey' & Hs). congruence.
      - destruct (for_range_error _ _ _ _ E) as (j & acc & _ & Hb).
        now rewrite (source_id_error _ _ _ _ Hb). }
    split; [exact Hloop|]. unfold run. now rewrite Hloop.
Qed.

Lemma Forall2_map_l {A A' B : Type} (f : A -> A') (R : A' -> B -> Prop)
  (l : list A) (b : list B) :
  Forall2 R (map f l) b -> Forall2 (fun x y => R (f x) y) l b.
Proof.
  revert b. induction l as [|x l IH]; intros b H; inversion H; subst;
    constructor; [assumption | now apply IH].
Qed.

Lemma Forall2_impl_In {A B : Type} (R R' : A -> B -> Prop) (l : list A) (b : list B) :
  (forall x y, In x l -> R x y -> R' x y) -> Forall2 R l b -> Forall2 R' l b.
Proof.
  intros H F. induction F as [|x y l b Hxy _ IH]; constructor.
  - apply H; [now left | exact Hxy].
  - apply IH. intros x' y' Hin. apply H. now right.
Qed.

(** C9 (amended).  When the run completes, the [models] axis of the compiled
    dataset has one slice for each model of the dictionary, in the order of
    [mlist = list(ddict.keys())], which is the order in which the loop
    processes them.  The slice at a position carries the name of the model
    at that position, the third component of its catalogue key, and its
    four metrics are made of that model alone: of its series, sliced,
    flagged, regridded, masked, put under the time labels of the
    observations and divided by 100, against the one baseline. *)
Theorem C9_models_axis (g : Globals) (combined : list MetricSet) :
  NoDup (keys (ddict g)) ->
  run subset_bbox regrid g = Ok combined ->
  length combined = length (ddict g)
  /\ Forall2 (fun km ms =>
                nth_error (split "." (fst km)) 2 = Some (model_name ms)
                /\ ms = metrics (target subset_bbox (ref_ds g)) (obs_shape g) (base g)
                          (map_series (fun a => F64.div a (dec 100 1))
                             (combine (obs_time (base g))
                                (masked_slices regrid (target subset_bbox (ref_ds g))
                                               (mask_of (ref_ds g)) (snd km))))
                          (model_name ms))
             (ddict g) combined.
Proof.
  intros Hnd Hrun. apply run_produces in Hrun. split.
  - apply Forall2_length in Hrun. unfold mlist, keys in Hrun.
    now rewrite <- Hrun, length_map.
  - unfold mlist, keys in Hrun. apply Forall2_map_l in Hrun.
    eapply Forall2_impl_In; [|exact Hrun].
    intros [key m] ms Hin (m' & model_da & name & Hds & Hs & Hnorm & ->).
    cbn [fst snd] in *.
    rewrite (getitem_NoDup _ _ _ Hnd Hin) in Hds. inversion Hds. subst m'.
    destruct (normalise_on_ok _ _ _ _ _ _ Hnorm) as [_ ->].
    split; [exact Hs | reflexivity].
Qed.

End RunMore.

Lemma two_models_NoDup : NoDup (keys two_models).
Proof.
  constructor; [|constructor; [intros [] | constructor]].
  intros [H|[]]. discriminate H.
Qed.

Lemma X2_source_id_loop_witness :
  for_range (source_id_body globals2) (seq 0 (lct globals2)) []
  = Ok ["CMCC-CM2-VHR4"; "CMCC-CM2-HR4"]%string
  /\ run whole_grid nearest globals_bad_key = Error IndexError.
Proof.
  split.
  - apply (proj1 (X2_source_id_loop whole_grid nearest globals2)).
    repeat constructor.
  - apply (proj2 (X2_source_id_loop whole_grid nearest globals_bad_key)
                 "CMCC-CM2-HR4.gn"%string).
    + right. left. reflexivity.
    + reflexivity.
Defined.

Lemma C9_models_axis_witness :
  exists combined,
    run whole_grid nearest globals2 = Ok combined
    /\ length combined = 2
    /\ Forall2 (fun km ms => nth_error (split "." (fst km)) 2 = Some (model_name ms))
               two_models combined.
Proof.
  destruct (run whole_grid nearest globals2) as [combined|e] eqn:E.
  - exists combined. split; [reflexivity|].
    destruct (C9_models_axis whole_grid nearest globals2 combined two_models_NoDup E)
      as [Hlen H].
    split; [exact Hlen|].
    eapply Forall2_impl; [|exact H]. intros km ms [Hs _]. exact Hs.
  - exfalso.
    assert (H : is_ok (run whole_grid nearest globals2) = true)
      by (vm_compute; reflexivity).
    rewrite E in H. discriminate H.
Defined.

(** C9, as stated, fails: on the dictionary of the recorded run the axis
    follows the keys as the catalogue returned them, which is not the order
    of the list of models that was asked for. *)
Lemma C9_counterexample :
  names_of (run whole_grid nearest globals_recorded)
  = Some ["CMCC-CM2-VHR4"; "CMCC-CM2-HR4"; "HadGEM3-GC31-LL"; "HadGEM3-GC31-HM";
          "HadGEM3-GC31-MM"; "GFDL-CM4C192"]%string
  /\ ["CMCC-CM2-VHR4"; "CMCC-CM2-HR4"; "HadGEM3-GC31-LL"; "HadGEM3-GC31-HM";
      "HadGEM3-GC31-MM"; "GFDL-CM4C192"]%string <> mods.
Proof.
  split; [vm_compute; reflexivity | discriminate].
Qed.

(** ** The target grid of every iteration *)

Section SharedRefFacts.

Variable subset_bbox_io : RefDataset -> Z * Z -> Z * Z -> Grid * RefDataset.
Variable regrid : Regridder -> Field -> Field.

(** The invariant of the loop: as long as the collaborator gives the
    reference dataset back as it was, every iteration starts from it. *)
Lemma MEF_loop_io_hoisted (g : Globals) (source_id : list string) (js : list nat) :
  snd (subset_bbox_io (ref_ds g) lon_bnds lat_bnds) = ref_ds g ->
  forall st : LoopState,
  st_ref_ds st = ref_ds g ->
  for_range (MEF_body_hoisted regrid g
               (fst (subset_bbox_io (ref_ds g) lon_bnds lat_bnds)) source_id)
            js (st_MEF st)
  = (st' <- for_range (MEF_body_io subset_bbox_io regrid g (mask_of (ref_ds g))
                                   source_id) js st ;;
     Ok (st_MEF st')).
Proof.
  intros Hpure. induction js as [|j js IH]; intros st Hst; [reflexivity|].
  cbn [for_range]. unfold MEF_body_io at 1, MEF_body_hoisted at 1.
  destruct (index (mlist g) j) as [key|e]; cbn [bind]; [|reflexivity].
  destruct (getitem (ddict g) key) as [model_ds|e]; cbn [bind]; [|reflexivity].
  destruct (index source_id j) as [model|e]; cbn [bind]; [|reflexivity].
  rewrite Hst.
  destruct (normalise_on regrid (fst (subset_bbox_io (ref_ds g) lon_bnds lat_bnds))
              (mask_of (ref_ds g)) (obs_time (base g)) model_ds)
    as [model_da|e]; cbn [bind]; [|reflexivity].
  rewrite <- IH; [reflexivity | exact Hpure].
Qed.

Lemma MEF_loop_io_built (g : Globals) (source_id : list string) (js : list nat) :
  snd (subset_bbox_io (ref_ds g) lon_bnds lat_bnds) = ref_ds g ->
  forall st st' : LoopState,
  st_ref_ds st = ref_ds g ->
  for_range (MEF_body_io subset_bbox_io regrid g (mask_of (ref_ds g)) source_id) js st
  = Ok st' ->
  st_ref_ds st' = ref_ds g
  /\ exists new,
       st_built st' = st_built st ++ new
       /\ Forall2 (fun j tr =>
                     fst tr = fst (subset_bbox_io (ref_ds g) lon_bnds lat_bnds)
                     /\ grid_out (snd tr)
                        = fst (subset_bbox_io (ref_ds g) lon_bnds lat_bnds)
                     /\ exists key model_ds,
                          nth_error (mlist g) j = Some key
                          /\ getitem (ddict g) key = Ok model_ds
                          /\ grid_in (snd tr) = model_grid model_ds)
                  js new.
Proof.
  intros Hpure. induction js as [|j js IH]; intros st st' Hst H.
  - simpl in H. inversion H. subst st'. split; [exact Hst|].
    exists []. split; [now rewrite app_nil_r | constructor].
  - cbn [for_range] in H. apply bind_Ok in H. destruct H as (st1 & Hb & H).
    unfold MEF_body_io in Hb.
    apply bind_Ok in Hb. destruct Hb as (key & Hkey & Hb).
    apply bind_Ok in Hb. destruct Hb as (model_ds & Hds & Hb).
    apply bind_Ok in Hb. destruct Hb as (model & _ & Hb).
    rewrite Hst in Hb.
    apply bind_Ok in Hb. destruct Hb as (model_da & _ & Hb).
    inversion Hb as [E1]. clear Hb.
    assert (Hst1 : st_ref_ds st1 = ref_ds g) by (rewrite <- E1; exact Hpure).
    destruct (IH st1 st' Hst1 H) as (Hr & new & Hbuilt & Hnew).
    split; [exact Hr|].
    eexists. split.
    + rewrite Hbuilt, <- E1. cbn [st_built]. rewrite <- app_assoc. reflexivity.
    + constructor; [|exact Hnew].
      cbn [fst snd grid_out grid_in regridder]. repeat split.
      exists key, model_ds. repeat split; [now apply index_Ok | exact Hds].
Qed.

Lemma run_io_hoisted_eq (g : Globals) :
  snd (subset_bbox_io (ref_ds g) lon_bnds lat_bnds) = ref_ds g ->
  run_io_hoisted subset_bbox_io regrid g = run_io subset_bbox_io regrid g.
Proof.
  intros Hpure. unfold run_io_hoisted, run_io, loop_io.
  destruct (for_range (source_id_body g) (seq 0 (lct g)) []) as [sid|e];
    cbn [bind]; [|reflexivity].
  pose proof (MEF_loop_io_hoisted g sid (seq 0 (lct g)) Hpure
                {| st_ref_ds := ref_ds g; st_MEF := []; st_built := [] |} eq_refl)
    as H.
  cbn [st_MEF] in H. rewrite H.
  destruct (for_range (MEF_body_io subset_bbox_io regrid g (mask_of (ref_ds g)) sid)
                      (seq 0 (lct g))
                      {| st_ref_ds := ref_ds g; st_MEF := []; st_built := [] |});
    reflexivity.
Qed.

(** C10 (amended).  The loop never assigns the reference dataset or the
    bounds of the box; so, provided the collaborator [subset_bbox] leaves
    the reference dataset it is given as it was, the dataset is the same
    at the start of every iteration, the target grid built in every
    iteration is the one of the first, and it is the output grid of the
    regridder of the iteration; the input grid of the regridder is the
    native grid of the model of the iteration.  Building the target grid
    once before the loop then gives the same run. *)
Theorem C10_target_hoisted (g : Globals) :
  snd (subset_bbox_io (ref_ds g) lon_bnds lat_bnds) = ref_ds g ->
  let ds_tgt := fst (subset_bbox_io (ref_ds g) lon_bnds lat_bnds) in
  run_io_hoisted subset_bbox_io regrid g = run_io subset_bbox_io regrid g
  /\ forall st,
      loop_io subset_bbox_io regrid g = Ok st ->
      st_ref_ds st = ref_ds g
      /\ Forall2 (fun key tr =>
                    fst tr = ds_tgt
                    /\ grid_out (snd tr) = ds_tgt
                    /\ exists model_ds,
                         getitem (ddict g) key = Ok model_ds
                         /\ grid_in (snd tr) = model_grid model_ds)
                 (mlist g) (st_built st).
Proof.
  intros Hpure ds_tgt. split; [now apply run_io_hoisted_eq|].
  intros st Hst. unfold loop_io in Hst.
  apply bind_Ok in Hst. destruct Hst as (sid & _ & Hst).
  destruct (MEF_loop_io_built g sid (seq 0 (lct g)) Hpure
              {| st_ref_ds := ref_ds g; st_MEF := []; st_built := [] |} st eq_refl Hst)
    as (Hr & new & Hb & Hnew).
  split; [exact Hr|].
  simpl in Hb. rewrite Hb.
  apply Forall2_seq_nth in Hnew. destruct Hnew as [Hlen Hnth].
  apply Forall2_nth; [now rewrite Hlen|].
  intros j key tr Hkey Htr.
  destruct (Hnth _ _ Htr) as (Ht & Ho & key' & model_ds & Hkey' & Hds & Hi).
  simpl in Hkey'. assert (key' = key) by congruence. subst key'.
  repeat split; try assumption. now exists model_ds.
Qed.

End SharedRefFacts.

(** With a collaborator that leaves the reference dataset alone, the loop
    is the run of the other sections. *)
Lemma run_io_unchanged (subset_bbox : RefDataset -> Z * Z -> Z * Z -> Grid)
  (regrid : Regridder -> Field -> Field) (g : Globals) :
  run_io (unchanged subset_bbox) regrid g = run subset_bbox regrid g.
Proof.
  rewrite <- (run_io_hoisted_eq (unchanged subset_bbox) regrid g eq_refl).
  reflexivity.
Qed.

(** With one that crops it in place, the second iteration builds another
    target grid than the first. *)
Lemma cropped_target_differs :
  built_shapes (loop_io cropping nearest globals2)
  = Some [((1, 1), (2, 2)); ((0, 0), (1, 1))].
Proof. vm_compute. reflexivity. Qed.

Lemma C10_target_hoisted_witness :
  run_io_hoisted (unchanged whole_grid) nearest globals2
  = run_io (unchanged whole_grid) nearest globals2
  /\ exists st,
       loop_io (unchanged whole_grid) nearest globals2 = Ok st
       /\ Forall2 (fun key tr => fst tr = ref_grid ref_ocean
                                 /\ grid_out (snd tr) = ref_grid ref_ocean)
                  (keys two_models) (st_built st).
Proof.
  destruct (C10_target_hoisted (unchanged whole_grid) nearest globals2 eq_refl)
    as [Hrun Hloop].
  split; [exact Hrun|].
  destruct (loop_io (unchanged whole_grid) nearest globals2) as [st|e] eqn:E.
  - exists st. split; [reflexivity|].
    destruct (Hloop st eq_refl) as [_ H].
    eapply Forall2_impl; [|exact H].
    intros key tr (Ht & Ho & _). split; assumption.
  - exfalso.
    assert (H : built_shapes (loop_io (unchanged whole_grid) nearest globals2) <> None)
      by (vm_compute; discriminate).
    rewrite E in H. now apply H.
Defined.

(** C10, as stated, fails for the regridder: in a run on two models whose
    native grids differ, of two by two cells and of one cell, the regridder
    built in the second iteration is not the one built in the first, while
    the target grid is. *)
Lemma C10_counterexample :
  built_shapes (loop_io (unchanged whole_grid) nearest globals2)
  = Some [((1, 1), (2, 2)); ((1, 1), (1, 1))]
  /\ exists st tr0 tr1,
       loop_io (unchanged whole_grid) nearest globals2 = Ok st
       /\ st_built st = [tr0; tr1]
       /\ snd tr1 <> snd tr0.
Proof.
  assert (Hs : built_shapes (loop_io (unchanged whole_grid) nearest globals2)
               = Some [((1, 1), (2, 2)); ((1, 1), (1, 1))])
    by (vm_compute; reflexivity).
  split; [exact Hs|].
  destruct (loop_io (unchanged whole_grid) nearest globals2) as [st|e];
    [|discriminate Hs].
  simpl in Hs. inversion Hs as [Hm]. clear Hs.
  destruct (st_built st) as [|tr0 [|tr1 [|tr2 l]]] eqn:Eb; try discriminate Hm.
  exists st, tr0, tr1. split; [reflexivity|]. split; [exact Eb|].
  simpl in Hm.
  assert (H0 : g_ny (grid_in (snd tr0)) = 2) by (now inversion Hm).
  assert (H1 : g_ny (grid_in (snd tr1)) = 1) by (now inversion Hm).
  intros E. rewrite E, H0 in H1. discriminate H1.
Qed.

(** ** The slice to the window *)

Lemma next_month_index (d : date) :
  valid_date d ->
  valid_date (next_month d) /\ month_index (next_month d) = S (month_index d).
Proof.
  unfold valid_date, next_month, month_index. intros H.
  destruct (month d =? 12) eqn:E; simpl.
  - apply Nat.eqb_eq in E. lia.
  - apply Nat.eqb_neq in E. lia.
Qed.

Lemma date_leb_index (a b : date) :
  valid_date a -> valid_date b ->
  date_leb a b = (month_index a <=? month_index b).
Proof.
  unfold valid_date, date_leb, month_index. intros Ha Hb.
  destruct (year a <? year b) eqn:E1; simpl.
  - apply Nat.ltb_lt in E1. symmetry. apply Nat.leb_le. lia.
  - apply Nat.ltb_ge in E1. destruct (year a =? year b) eqn:E2; simpl.
    + apply Nat.eqb_eq in E2. rewrite E2.
      destruct (month a <=? month b) eqn:E3; symmetry.
      * apply Nat.leb_le in E3. apply Nat.leb_le. lia.
      * apply Nat.leb_gt in E3. apply Nat.leb_gt. lia.
    + apply Nat.eqb_neq in E2. symmetry. apply Nat.leb_gt. lia.
Qed.

Lemma month_index_inj (a b : date) :
  valid_date a -> valid_date b -> month_index a = month_index b -> a = b.
Proof.
  destruct a as [ya ma], b as [yb mb]. unfold valid_date, month_index. simpl.
  intros Ha Hb H. assert (ya = yb) by lia. subst. f_equal. lia.
Qed.

Section Window.

Variables lo hi : date.
Hypothesis lo_valid : valid_date lo.
Hypothesis hi_valid : valid_date hi.

Let inside (x : date) : bool := date_leb lo x && date_leb x hi.

Lemma slice_after (d : date) (n : nat) :
  valid_date d -> month_index hi < month_index d ->
  filter inside (months_from d n) = [].
Proof.
  revert d. induction n as [|n IH]; intros d Hd Hlt; [reflexivity|].
  simpl. unfold inside at 1. rewrite (date_leb_index d hi Hd hi_valid).
  replace (month_index d <=? month_index hi) with false
    by (symmetry; apply Nat.leb_gt; lia).
  rewrite andb_false_r.
  destruct (next_month_index d Hd) as [Hv Hi]. apply IH; [exact Hv | lia].
Qed.

Lemma slice_inside (k : nat) (d : date) (n : nat) :
  valid_date d -> month_index lo <= month_index d -> k <= n ->
  month_index d + k = S (month_index hi) ->
  filter inside (months_from d n) = months_from d k.
Proof.
  revert d n. induction k as [|k IH]; intros d n Hd Hlo Hk Hend.
  - apply slice_after; [exact Hd | lia].
  - destruct n as [|n]; [lia|]. simpl. unfold inside at 1.
    rewrite (date_leb_index lo d lo_valid Hd), (date_leb_index d hi Hd hi_valid).
    replace (month_index lo <=? month_index d) with true
      by (symmetry; apply Nat.leb_le; lia).
    replace (month_index d <=? month_index hi) with true
      by (symmetry; apply Nat.leb_le; lia).
    simpl. f_equal.
    destruct (next_month_index d Hd) as [Hv Hi]. apply IH; [exact Hv | lia | lia | lia].
Qed.

Lemma slice_months (d : date) (n : nat) :
  valid_date d ->
  month_index d <= month_index lo -> month_index lo <= month_index hi ->
  month_index hi < month_index d + n ->
  filter inside (months_from d n)
  = months_from lo (S (month_index hi) - month_index lo).
Proof.
  revert d. induction n as [|n IH]; intros d Hd Hlo Hlh Hhi; [lia|].
  destruct (Nat.eq_dec (month_index d) (month_index lo)) as [E|E].
  - apply (month_index_inj d lo Hd lo_valid) in E. subst d.
    apply slice_inside; [exact lo_valid | lia | lia | lia].
  - simpl. unfold inside at 1. rewrite (date_leb_index lo d lo_valid Hd).
    replace (month_index lo <=? month_index d) with false
      by (symmetry; apply Nat.leb_gt; lia).
    simpl. destruct (next_month_index d Hd) as [Hv Hi].
    apply IH; [exact Hv | lia | lia | lia].
Qed.

End Window.

Lemma sel_slice_labels (lo hi : date) (s : Series) :
  map fst (sel_slice lo hi s)
  = filter (fun x => date_leb lo x && date_leb x hi) (map fst s).
Proof.
  unfold sel_slice. induction s as [|p s IH]; [reflexivity|].
  simpl. destruct (date_leb lo (fst p) && date_leb (fst p) hi); simpl; now rewrite IH.
Qed.

(** X6.  A monthly series without gaps that starts not after December 1978
    and ends not before November 2014 is sliced to the 432 months of the
    window, December 1978 to November 2014 in order, whatever its length. *)
Theorem X6_slice_to_window (s : Series) (d : date) (n : nat) :
  map fst s = months_from d n ->
  valid_date d ->
  month_index d <= month_index window_lo ->
  month_index window_hi < month_index d + n ->
  map fst (sel_slice window_lo window_hi s) = fixed_window
  /\ length (sel_slice window_lo window_hi s) = 432.
Proof.
  intros Hs Hd Hlo Hhi.
  assert (Hl : valid_date window_lo) by (unfold valid_date; simpl; lia).
  assert (Hh : valid_date window_hi) by (unfold valid_date; simpl; lia).
  assert (E : map fst (sel_slice window_lo window_hi s) = fixed_window).
  { rewrite sel_slice_labels, Hs.
    rewrite (slice_months window_lo window_hi Hl Hh d n Hd Hlo); [reflexivity | | exact Hhi].
    apply Nat.leb_le. vm_compute. reflexivity. }
  split; [exact E|].
  rewrite <- (length_map fst), E. apply window_length.
Qed.

Lemma X6_slice_to_window_witness :
  map fst (sel_slice window_lo window_hi (model_siconc model_1950)) = fixed_window
  /\ length (sel_slice window_lo window_hi obs_1978) = 432.
Proof.
  split.
  - refine (proj1 (X6_slice_to_window (model_siconc model_1950) (mkdate 1950 1) 780
                     _ _ _ _)).
    + unfold model_1950. cbn [model_siconc]. rewrite map_map. apply map_id.
    + unfold valid_date. cbn [month]. lia.
    + apply Nat.leb_le. vm_compute. reflexivity.
    + apply Nat.ltb_lt. vm_compute. reflexivity.
  - refine (proj2 (X6_slice_to_window obs_1978 (mkdate 1978 11) 434 _ _ _ _)).
    + unfold obs_1978. rewrite map_map. apply map_id.
    + unfold valid_date. cbn [month]. lia.
    + apply Nat.leb_le. vm_compute. reflexivity.
    + apply Nat.ltb_lt. vm_compute. reflexivity.
Defined.

(** ** The bands of the variations *)

Lemma gtb_Fin (q c : Qc) : F64.gtb (F64.Fin q) (F64.Fin c) = true <-> (c < q)%Qc.
Proof.
  unfold F64.gtb, F64.ltb. rewrite Qclt_alt.
  destruct (c ?= q)%Qc; split; congruence.
Qed.

Lemma leb_Fin (q c : Qc) : F64.leb (F64.Fin q) (F64.Fin c) = true <-> (q <= c)%Qc.
Proof.
  unfold F64.leb. rewrite Qcle_alt.
  destruct (q ?= c)%Qc; split; congruence.
Qed.

Lemma eqb_Fin (q c : Qc) : F64.eqb (F64.Fin q) (F64.Fin c) = true <-> q = c.
Proof.
  unfold F64.eqb. split; [apply Qc_eq_bool_correct|].
  intros ->. unfold Qc_eq_bool. now destruct (Qc_eq_dec c c).
Qed.

Lemma gtb_Fin_false (q c : Qc) :
  F64.gtb (F64.Fin q) (F64.Fin c) = false <-> (q <= c)%Qc.
Proof.
  rewrite <- not_true_iff_false, gtb_Fin. split.
  - apply Qcnot_lt_le.
  - intros H1 H2. exact (Qcle_not_lt _ _ H1 H2).
Qed.

Lemma leb_Fin_false (q c : Qc) :
  F64.leb (F64.Fin q) (F64.Fin c) = false <-> (c < q)%Qc.
Proof.
  rewrite <- not_true_iff_false, leb_Fin. split.
  - apply Qcnot_le_lt.
  - intros H1 H2. exact (Qclt_not_le _ _ H1 H2).
Qed.

(** Comparisons of a finite value with the constants of cell 3b, as linear
    facts on rationals. *)
Ltac to_Q :=
  unfold dec in *;
  repeat match goal with
  | H : _ && _ = true |- _ => apply andb_true_iff in H; destruct H
  | H : F64.gtb (F64.Fin _) (F64.Fin _) = true |- _ => apply gtb_Fin in H
  | H : F64.leb (F64.Fin _) (F64.Fin _) = true |- _ => apply leb_Fin in H
  | H : F64.eqb (F64.Fin _) (F64.Fin _) = true |- _ => apply eqb_Fin in H
  | H : F64.gtb (F64.Fin _) (F64.Fin _) = false |- _ => apply gtb_Fin_false in H
  | H : F64.leb (F64.Fin _) (F64.Fin _) = false |- _ => apply leb_Fin_false in H
  end;
  unfold Qclt, Qcle in *;
  repeat match goal with
  | H : ?q = F64.qc _ _ |- _ => apply (f_equal this) in H
  end;
  change (this (F64.qc 0 1)) with (0#1)%Q in *;
  change (this (F64.qc 15 100)) with (3#20)%Q in *;
  change (this (F64.qc 8 10)) with (4#5)%Q in *;
  change (this (F64.qc 80 100)) with (4#5)%Q in *;
  change (this (F64.qc 1 1)) with (1#1)%Q in *;
  repeat match goal with
  | H : this ?q = _ |- _ => rewrite H in *; clear H
  end.

(** X7.  The four isolating variations keep disjoint bands: a value is kept
    by at most one of ZERO, I015, I1580 and I80100, and a value between 0
    and 1 is kept by one of them; L15 keeps what I1580 or I80100 keep, and
    the values above 1. *)
Theorem X7_bands (a : f64) :
  (forall v w, In v isolating -> In w isolating ->
               variation_cond v a = true -> variation_cond w a = true -> v = w)
  /\ (F64.leb (dec 0 1) a = true -> F64.leb a (dec 1 1) = true ->
      exists v, In v isolating /\ variation_cond v a = true)
  /\ variation_cond L15 a
     = variation_cond I1580 a || variation_cond I80100 a || F64.gtb a (dec 1 1).
Proof.
  split; [|split].
  - intros v w Hv Hw. unfold isolating in *. simpl in Hv, Hw.
    destruct a as [| |q|];
      repeat (destruct Hv as [<-|Hv]); try contradiction;
      repeat (destruct Hw as [<-|Hw]); try contradiction;
      try reflexivity; try (simpl; discriminate);
      unfold variation_cond; intros H1 H2; exfalso; to_Q; lra.
  - destruct a as [| |q|]; try (simpl; discriminate).
    intros H0 H1. unfold isolating, variation_cond.
    destruct (Qc_eq_dec q (F64.qc 0 1)) as [E|E].
    + exists ZERO. split; [simpl; tauto | now apply eqb_Fin].
    + assert (Hpos : (F64.qc 0 1 < q)%Qc).
      { apply leb_Fin in H0. destruct (Qcle_lt_or_eq _ _ H0); [assumption | congruence]. }
      destruct (Qclt_le_dec (F64.qc 15 100) q) as [H15|H15].
      * destruct (Qclt_le_dec (F64.qc 8 10) q) as [H80|H80].
        -- exists I80100. split; [simpl; tauto|].
           apply andb_true_iff. split; [now apply gtb_Fin | exact H1].
        -- exists I1580. split; [simpl; tauto|].
           apply andb_true_iff. split; [now apply gtb_Fin | now apply leb_Fin].
      * exists I015. split; [simpl; tauto|].
        apply andb_true_iff. split; [now apply gtb_Fin | now apply leb_Fin].
  - destruct a as [| |q|]; try reflexivity. unfold variation_cond.
    destruct (F64.gtb (F64.Fin q) (dec 15 100)) eqn:A;
      destruct (F64.leb (F64.Fin q) (dec 8 10)) eqn:B;
      destruct (F64.gtb (F64.Fin q) (dec 80 100)) eqn:C;
      destruct (F64.leb (F64.Fin q) (dec 1 1)) eqn:D;
      destruct (F64.gtb (F64.Fin q) (dec 1 1)) eqn:G;
      try reflexivity; exfalso; to_Q; lra.
Qed.

Lemma X7_bands_witness :
  exists v, In v isolating /\ variation_cond v (dec 5 10) = true.
Proof.
  apply (proj1 (proj2 (X7_bands (dec 5 10)))); vm_compute; reflexivity.
Defined.

(** ** The quality control of the observations *)

Lemma mul_one_r (a : f64) : F64.mul a F64.one = a.
Proof.
  destruct a as [| |q|]; try reflexivity.
  unfold F64.mul, F64.one. f_equal. unfold F64.qc. ring.
Qed.

Lemma where_cases (c : bool) (a : f64) :
  F64.where_ c a = F64.NaN \/ (F64.where_ c a = a /\ c = true).
Proof. destruct c; simpl; auto. Qed.

Lemma of_nat_positive (n : nat) :
  0 < n -> F64.sgn (F64.qc (Z.of_nat n) 1) = Gt.
Proof.
  intros H. unfold F64.sgn, F64.qc, Qccompare, Q2Qc. cbn [this].
  rewrite !Qred_correct. unfold Qcompare. simpl.
  rewrite Z.mul_1_r. apply Z.compare_gt_iff. lia.
Qed.

(** A sum that skips not-a-number, over terms none of which is plus
    infinity, is finite or minus infinity. *)
Lemma nansum_no_pinf (l : list f64) :
  Forall (fun a => a <> F64.PInf) l ->
  F64.nansum l <> F64.NaN /\ F64.nansum l <> F64.PInf.
Proof.
  induction 1 as [|a l Ha _ IH]; [split; discriminate|].
  rewrite F64Facts.nansum_cons. destruct IH as [H1 H2].
  destruct a as [| |q|]; simpl; try (split; assumption); try contradiction.
  - destruct (F64.nansum l); split; try discriminate; contradiction.
  - destruct (F64.nansum l); split; try discriminate; contradiction.
Qed.

Lemma flagged_no_pinf (obs_ds : Series) (y x : nat) :
  Forall (fun a => a <> F64.PInf) (cell (flag_obs obs_ds) y x).
Proof.
  unfold flag_obs. rewrite cell_map_series. apply Forall_map, Forall_forall.
  intros a _.
  destruct (where_cases (F64.leb a (dec 251 100)) a) as [->|[-> Hc]];
    [discriminate|].
  intros ->. discriminate Hc.
Qed.

Lemma count_le_valid (obs_da : Series) (y x : nat) :
  count obs_da y x <= F64.count (cell obs_da y x).
Proof.
  unfold count, F64.count. rewrite cell_map_series.
  induction (cell obs_da y x) as [|a l IH]; [apply le_n|].
  cbn [map filter].
  destruct (where_cases (F64.gtb a F64.zero) a) as [E|[E _]]; rewrite E.
  - cbn [F64.isnan negb]. destruct (negb (F64.isnan a)); cbn [length]; lia.
  - destruct (negb (F64.isnan a)); cbn [length]; lia.
Qed.

Lemma quality_control_kept (obs_ds : Series) (y x : nat) :
  20 < count (flag_obs obs_ds) y x ->
  cell (quality_control obs_ds) y x = cell (flag_obs obs_ds) y x.
Proof.
  intros H. unfold quality_control. rewrite cell_broadcast.
  unfold mincount. apply Nat.leb_gt in H. rewrite H.
  rewrite <- (map_id (cell (flag_obs obs_ds) y x)) at 2.
  apply map_ext. intros a. apply mul_one_r.
Qed.

Lemma apply_variation_cell (v : variation) (s : Series) (y x : nat) :
  cell (apply_variation v s) y x
  = map (fun a => F64.where_ (variation_cond v a) a) (cell s y x).
Proof.
  destruct v; simpl; try apply cell_map_series.
  symmetry. apply map_id.
Qed.

(** X8.  The climatological mean of a cell is not-a-number exactly when the
    cell has at most 20 observations above zero over the window: every
    other cell has a mean, whatever the variation. *)
Theorem X8_mean_defined (v : variation) (raw : Series) (y x : nat) :
  o_mean (observation_baseline v raw) y x = F64.NaN
  <-> count (flag_obs (sel_slice window_lo window_hi raw)) y x <= 20.
Proof.
  set (obs_ds := sel_slice window_lo window_hi raw).
  change (o_mean (observation_baseline v raw) y x)
    with (F64.nanmean (cell (quality_control obs_ds) y x)).
  split.
  - intros Hnan. destruct (Nat.le_gt_cases (count (flag_obs obs_ds) y x) 20) as [H|H];
      [exact H | exfalso].
    rewrite (quality_control_kept _ _ _ H) in Hnan.
    pose proof (count_le_valid (flag_obs obs_ds) y x) as Hc.
    destruct (nansum_no_pinf _ (flagged_no_pinf obs_ds y x)) as [H1 H2].
    unfold F64.nanmean, F64.of_nat in Hnan.
    assert (Hs : F64.sgn (F64.qc (Z.of_nat (F64.count (cell (flag_obs obs_ds) y x))) 1) = Gt)
      by (apply of_nat_positive; lia).
    destruct (F64.nansum (cell (flag_obs obs_ds) y x)) as [| |q|];
      try contradiction; unfold F64.div in Hnan; rewrite Hs in Hnan; discriminate Hnan.
  - intros H. apply F64Facts.nanmean_all_nan. now apply quality_control_masked.
Qed.

(** X9.  The quality control never alters an observation: at every time step
    the value it leaves is the raw value, then at most 2.51, or
    not-a-number; and in a cell with more than 20 observations above zero it
    removes nothing but the values above 2.51. *)
Theorem X9_quality_control (obs_ds : Series) (y x : nat) :
  Forall2 (fun r a => a = F64.NaN \/ (a = r /\ F64.leb r (dec 251 100) = true))
          (cell obs_ds y x) (cell (quality_control obs_ds) y x)
  /\ (20 < count (flag_obs obs_ds) y x ->
      cell (quality_control obs_ds) y x
      = map (fun r => F64.where_ (F64.leb r (dec 251 100)) r) (cell obs_ds y x)).
Proof.
  split.
  - unfold quality_control. rewrite cell_broadcast.
    unfold flag_obs. rewrite cell_map_series, map_map.
    induction (cell obs_ds y x) as [|r l IH]; simpl; constructor; [|exact IH].
    unfold mincount.
    destruct (_ <=? 20); [left; apply mul_nan_r|].
    rewrite mul_one_r.
    destruct (where_cases (F64.leb r (dec 251 100)) r) as [->|[-> Hc]]; auto.
  - intros H. rewrite (quality_control_kept _ _ _ H).
    unfold flag_obs. apply cell_map_series.
Qed.

Lemma X9_quality_control_witness :
  cell (quality_control obs24) 0 0
  = map (fun r => F64.where_ (F64.leb r (dec 251 100)) r) (cell obs24 0 0).
Proof.
  apply (proj2 (X9_quality_control obs24 0 0)).
  apply Nat.ltb_lt. vm_compute. reflexivity.
Defined.

(** ** The metric is at most one *)

Lemma mef_at_most_one (num den : f64) :
  F64.nonneg num -> F64.nonneg den -> at_most_one (mef num den).
Proof.
  unfold at_most_one.
  destruct num as [| |n|], den as [| |d|]; intros Hn Hd;
    try (now destruct Hn); try (now destruct Hd).
  - destruct (Qc_eq_dec d (F64.qc 0 1)) as [->|Hd0].
    + change (F64.Fin (F64.qc 0 1)) with F64.zero.
      destruct (mef_degenerate (F64.Fin n) Hn) as [[_ ->]|[_ ->]]; auto.
    + right. right. rewrite (mef_finite n d Hd0). eexists. split; [reflexivity|].
      apply Qcle_minus_iff.
      replace (F64.qc 1 1 + - (F64.qc 1 1 - n / d))%Qc with (n * / d)%Qc
        by (unfold F64.qc, Qcdiv; ring).
      simpl in Hn, Hd.
      unfold Qcle, F64.qc in *. cbn [this Qcmult Qcinv Q2Qc] in *.
      rewrite !Qred_correct in *.
      apply Qmult_le_0_compat; [exact Hn|].
      apply Qinv_le_0_compat. exact Hd.
  - right. right. exists (F64.qc 1 1). split; [|apply Qcle_refl].
    unfold mef, F64.div, F64.zero, F64.one, F64.sub, F64.opp, F64.add.
    now f_equal.
  - right. left. simpl in Hd. unfold mef, F64.div.
    destruct (F64.sgn d) eqn:E; try reflexivity.
    now apply F64Facts.sgn_nonneg in E.
  - left. reflexivity.
Qed.

Lemma MEF_den_slices (obs_da : Series) (o_mean : Field) (p : date * Field) :
  In p (MEF_den obs_da o_mean) ->
  forall y x, snd p y x = F64.NaN \/ F64.nonneg (snd p y x).
Proof.
  unfold MEF_den, broadcast. intros H y x.
  apply in_map_iff in H. destruct H as (q & <- & _). simpl. unfold sqdiff.
  destruct (F64Facts.sq_cases (F64.sub (snd q y x) (o_mean y x))) as [[H _]|H]; auto.
Qed.

(** X10.  No value of the four outputs is above one: a value of the annual,
    monthly, seasonal or binned output is not-a-number, minus infinity, or a
    finite number at most 1. *)
Theorem X10_at_most_one (obs_da model_da : Series) (o_mean : Field) :
  (forall y x, at_most_one (MEF_a obs_da model_da o_mean y x))
  /\ (forall k f y x, In (k, f) (MEF_m obs_da model_da o_mean) -> at_most_one (f y x))
  /\ (forall k f y x, In (k, f) (MEF_s obs_da model_da o_mean) -> at_most_one (f y x))
  /\ (forall ny nx oy ox d v,
        In (d, v) (MEF_b ny nx oy ox obs_da model_da o_mean) -> at_most_one v).
Proof.
  split; [|split; [|split]].
  - intros y x. unfold MEF_a.
    rewrite <- (filter_all (MEF_num obs_da model_da)),
            <- (filter_all (MEF_den obs_da o_mean)).
    apply mef_at_most_one; apply sum_tdim_nonneg;
      [apply MEF_num_squares | apply MEF_den_squares].
  - intros k f y x Hin. rewrite (MEF_m_groups _ _ _ _ _ Hin).
    apply mef_at_most_one; apply sum_tdim_nonneg;
      [apply MEF_num_squares | apply MEF_den_squares].
  - intros k f y x Hin. rewrite (MEF_s_groups _ _ _ _ _ Hin).
    apply mef_at_most_one; apply sum_tdim_nonneg;
      [apply MEF_num_squares | apply MEF_den_squares].
  - intros ny nx oy ox d v Hin. unfold MEF_b in Hin.
    apply in_map_iff in Hin. destruct Hin as ([[dn n] [dd dn']] & E & Hin).
    inversion E. subst. simpl.
    pose proof (in_combine_l _ _ _ _ Hin) as Hn.
    pose proof (in_combine_r _ _ _ _ Hin) as Hd.
    unfold sum_xy in Hn, Hd.
    apply in_map_iff in Hn. destruct Hn as (pn & En & Hpn).
    apply in_map_iff in Hd. destruct Hd as (pd & Ed & Hpd).
    inversion En. inversion Ed. subst.
    apply mef_at_most_one; apply F64Facts.nonneg_nansum, values_Forall.
    + exact (MEF_num_slices _ _ _ Hpn).
    + exact (MEF_den_slices _ _ _ Hpd).
Qed.

Lemma X8_mean_defined_witness :
  o_mean (observation_baseline I80100 obs24_sparse) 0 0 = F64.NaN
  /\ o_mean (observation_baseline I80100 obs24) 0 0 <> F64.NaN.
Proof.
  split.
  - apply (proj2 (X8_mean_defined I80100 obs24_sparse 0 0)).
    apply Nat.leb_le. vm_compute. reflexivity.
  - intros H. apply (proj1 (X8_mean_defined I80100 obs24 0 0)) in H.
    apply Nat.leb_le in H. vm_compute in H. discriminate H.
Defined.

Lemma X10_at_most_one_witness :
  exists f, In (12, f) (MEF_m obs24 model24 (mean_tdim obs24))
            /\ at_most_one (f 0 0).
Proof.
  destruct (MEF_m_has_group obs24 model24 (mean_tdim obs24) 12) as [f Hf];
    [vm_compute; left; reflexivity|].
  exists f. split; [exact Hf|].
  exact (proj1 (proj2 (X10_at_most_one obs24 model24 (mean_tdim obs24))) 12 f 0 0 Hf).
Defined.

(** ** The overlay of the land mask and the normalised model *)

Lemma mask_of_cases (ref : RefDataset) (y x : nat) :
  (F64.gtb (landmask ref y x) F64.zero = true /\ mask_of ref y x = F64.NaN)
  \/ (F64.gtb (landmask ref y x) F64.zero = false /\ mask_of ref y x = F64.one).
Proof. unfold mask_of. destruct (F64.gtb _ _); auto. Qed.

(** X13.  On a dataset with as many slices as time labels, the loop that
    overlays the mask visits every time step once: the number and the order
    of the slices are kept, and at every time step a cell keeps its value
    where the land mask of the ancillary file is not above zero and becomes
    not-a-number where it is. *)
Theorem X13_overlay (ref : RefDataset) (ds : XR.Dataset) :
  length (XR.time ds) = length (XR.siconc ds) ->
  length (XR.siconc (overlay_mask (mask_of ref) ds)) = length (XR.siconc ds)
  /\ forall i f, nth_error (XR.siconc ds) i = Some f ->
       exists f', nth_error (XR.siconc (overlay_mask (mask_of ref) ds)) i = Some f'
         /\ forall y x,
              f' y x = if F64.gtb (landmask ref y x) F64.zero then F64.NaN else f y x.
Proof.
  intros Hlen.
  assert (E : XR.siconc (overlay_mask (mask_of ref) ds)
              = map (fun (f : Field) =>
                       (fun y x => F64.mul (f y x) (mask_of ref y x)) : Field)
                    (XR.siconc ds)).
  { unfold overlay_mask. cbn [XR.siconc XR.time]. rewrite Hlen.
    apply (overlay_loop (mask_of ref) [] (XR.siconc ds)). }
  rewrite E. split; [apply length_map|].
  intros i f Hf. eexists. split.
  - rewrite nth_error_map, Hf. reflexivity.
  - intros y x. cbn beta.
    destruct (mask_of_cases ref y x) as [[-> ->]|[-> ->]];
      [apply mul_nan_r | apply mul_one_r].
Qed.

Lemma X13_overlay_witness :
  exists f',
    nth_error (XR.siconc (overlay_mask (mask_of ref_coast) two_steps)) 1 = Some f'
    /\ f' 0 0 = dec 20 1 /\ f' 0 1 = F64.NaN.
Proof.
  destruct (X13_overlay ref_coast two_steps eq_refl) as [_ H].
  destruct (H 1 (fun _ x => dec (Z.of_nat x + 20) 1) eq_refl) as (f' & Hf & Hv).
  exists f'. split; [exact Hf|]. split.
  - rewrite Hv. apply F64Facts.same_eq. vm_compute. reflexivity.
  - rewrite Hv. reflexivity.
Defined.

Lemma snd_combine {A B : Type} (a : list A) (b : list B) :
  length a = length b -> map snd (combine a b) = b.
Proof.
  revert b. induction a as [|u a IH]; intros [|v b] H; simpl in *;
    try reflexivity; try discriminate.
  f_equal. apply IH. now inversion H.
Qed.

Section Normalised.

Variable regrid : Regridder -> Field -> Field.

(** X12.  When the normalisation succeeds, the model has the time labels of
    the observations, in their order, whatever its own labels were; at
    every cell, its value at step [i] is the value of the [i]-th slice of the
    model in the window, flagged above 100, regridded and divided by 100,
    where the land mask is not above zero, and not-a-number where it is. *)
Theorem X12_normalised (ds_tgt : Grid) (ref : RefDataset) (obs_ds_time : list date)
  (model_ds : ModelDataset) (model_da : Series) :
  normalise_on regrid ds_tgt (mask_of ref) obs_ds_time model_ds = Ok model_da ->
  map fst model_da = obs_ds_time
  /\ forall y x,
      cell model_da y x
      = map (fun p =>
               if F64.gtb (landmask ref y x) F64.zero then F64.NaN
               else F64.div
                      (regrid (regridder model_ds ds_tgt)
                              (fun y' x' =>
                                 F64.where_ (F64.leb (snd p y' x') (dec 100 1))
                                            (snd p y' x')) y x)
                      (dec 100 1))
            (sel_slice window_lo window_hi (model_siconc model_ds)).
Proof.
  intros H. split; [exact (normalise_on_labels regrid _ _ _ _ _ H)|].
  intros y x. destruct (normalise_on_ok regrid _ _ _ _ _ H) as [Hlen ->].
  rewrite cell_map_series. unfold cell.
  rewrite <- (map_map snd (fun f : Field => f y x)).
  rewrite snd_combine
    by (unfold masked_slices, map_series; rewrite !length_map; now symmetry).
  unfold masked_slices, map_series. rewrite !map_map.
  apply map_ext. intros p. cbn [fst snd].
  destruct (mask_of_cases ref y x) as [[-> ->]|[-> ->]].
  - now rewrite mul_nan_r.
  - now rewrite mul_one_r.
Qed.

End Normalised.

Lemma X12_normalised_witness :
  exists model_da,
    normalise_on nearest (target whole_grid ref_ocean) (mask_of ref_ocean)
                 (obs_time (observation_baseline DEF obs24)) model_a = Ok model_da
    /\ map fst model_da = obs_time (observation_baseline DEF obs24).
Proof.
  destruct (normalise_on nearest (target whole_grid ref_ocean) (mask_of ref_ocean)
              (obs_time (observation_baseline DEF obs24)) model_a)
    as [model_da|e] eqn:E.
  - exists model_da. split; [reflexivity|].
    exact (proj1 (X12_normalised nearest _ _ _ _ _ E)).
  - exfalso.
    assert (H : is_ok (normalise_on nearest (target whole_grid ref_ocean)
                         (mask_of ref_ocean)
                         (obs_time (observation_baseline DEF obs24)) model_a) = true)
      by (vm_compute; reflexivity).
    rewrite E in H. discriminate H.
Defined.

(** ** The labels of the groups *)

Lemma insert_sorted_le (k : nat) (l : list nat) :
  Sorted le l -> Sorted le (insert_sorted Nat.leb k l).
Proof.
  induction 1 as [|h t Ht IH Hh]; simpl.
  - repeat constructor.
  - destruct (k <=? h) eqn:E.
    + apply Nat.leb_le in E. repeat constructor; assumption.
    + apply Nat.leb_gt in E. constructor; [exact IH|].
      destruct t as [|h' t]; simpl.
      * constructor. lia.
      * destruct (k <=? h'); constructor; [lia|]. now inversion Hh.
Qed.

Lemma sort_sorted (l : list nat) : Sorted le (sort Nat.leb l).
Proof.
  induction l as [|k l IH]; simpl; [constructor | now apply insert_sorted_le].
Qed.

Lemma sorted_nodup_lt (l : list nat) :
  Sorted le l -> NoDup l -> StronglySorted lt l.
Proof.
  intros Hs Hn. apply Sorted_StronglySorted in Hs; [|intros a b c; apply Nat.le_trans].
  induction Hs as [|a l Hl IH Ha]; constructor.
  - apply IH. now inversion Hn.
  - inversion Hn as [|? ? Hna _]. subst.
    rewrite Forall_forall in *. intros b Hb.
    specialize (Ha b Hb). assert (a <> b) by (intros ->; contradiction). lia.
Qed.

Lemma MEF_m_labels (obs_da model_da : Series) (o_mean : Field) :
  map fst (MEF_m obs_da model_da o_mean)
  = unique Nat.eqb Nat.leb (labels by_month (MEF_num obs_da model_da)).
Proof.
  unfold MEF_m.
  rewrite (zip_groups_groupby Nat.eqb Nat.leb by_month Nat.eqb_eq)
    by apply labels_num_den.
  rewrite map_map. apply map_id.
Qed.

Lemma MEF_s_labels (obs_da model_da : Series) (o_mean : Field) :
  map fst (MEF_s obs_da model_da o_mean)
  = unique String.eqb String.leb (labels by_season (MEF_num obs_da model_da)).
Proof.
  unfold MEF_s.
  rewrite (zip_groups_groupby String.eqb String.leb by_season String.eqb_eq)
    by apply labels_num_den.
  rewrite map_map. apply map_id.
Qed.

Lemma by_season_four (d : date) :
  In (by_season d) ["DJF"; "MAM"; "JJA"; "SON"]%string.
Proof.
  unfold by_season. apply nth_In. simpl length.
  apply Nat.mod_upper_bound. discriminate.
Qed.

(** X14.  The monthly output has one entry for each month that occurs in the
    series, the months in strictly increasing order; the seasonal output has
    no season twice, only the seasons DJF, MAM, JJA and SON, and so at most
    four entries, whatever the time labels are. *)
Theorem X14_group_labels (obs_da model_da : Series) (o_mean : Field) :
  StronglySorted lt (map fst (MEF_m obs_da model_da o_mean))
  /\ (forall k, In k (map fst (MEF_m obs_da model_da o_mean))
                <-> In k (labels by_month (MEF_num obs_da model_da)))
  /\ NoDup (map fst (MEF_s obs_da model_da o_mean))
  /\ incl (map fst (MEF_s obs_da model_da o_mean)) ["DJF"; "MAM"; "JJA"; "SON"]%string
  /\ length (MEF_s obs_da model_da o_mean) <= 4.
Proof.
  rewrite MEF_m_labels, MEF_s_labels.
  assert (Hi : incl (unique String.eqb String.leb
                       (labels by_season (MEF_num obs_da model_da)))
                    ["DJF"; "MAM"; "JJA"; "SON"]%string).
  { intros k Hk. apply (proj1 (unique_In String.eqb String.leb String.eqb_eq k _)) in Hk.
    unfold labels in Hk. apply in_map_iff in Hk. destruct Hk as (p & <- & _).
    apply by_season_four. }
  pose proof (unique_NoDup String.eqb String.leb String.eqb_eq
                (labels by_season (MEF_num obs_da model_da))) as Hn.
  split; [|split; [|split; [|split]]].
  - apply sorted_nodup_lt.
    + apply sort_sorted.
    + apply (unique_NoDup Nat.eqb Nat.leb Nat.eqb_eq).
  - intros k. apply (unique_In Nat.eqb Nat.leb Nat.eqb_eq).
  - exact Hn.
  - exact Hi.
  - rewrite <- (length_map fst), MEF_s_labels.
    exact (NoDup_incl_length Hn Hi).
Qed.

(** ** The mean of the observations as a model *)

Lemma map_combine_const (g : f64 -> f64 -> f64) (l m : list f64) (c : f64) :
  length m = length l -> Forall (fun v => v = c) m ->
  map (fun uv => g (fst uv) (snd uv)) (combine l m) = map (fun u => g u c) l.
Proof.
  revert m. induction l as [|a l IH]; intros [|b m] Hl Hm; simpl in *;
    try discriminate; try reflexivity.
  inversion Hm; subst. f_equal. apply IH; [lia | assumption].
Qed.

(** X11.  A model that has, at a cell, the mean of the observations in every
    time step scores 0 there in the annual output, whenever the denominator
    of the cell is finite and not zero: the metric measures the model
    against the mean of the observations. *)
Theorem X11_mean_model (obs_da model_da : Series) (o_mean : Field) (y x : nat)
  (q : Qc) :
  length model_da = length obs_da ->
  Forall (fun v => v = o_mean y x) (cell model_da y x) ->
  sum_tdim (MEF_den obs_da o_mean) y x = F64.Fin q ->
  q <> F64.qc 0 1 ->
  MEF_a obs_da model_da o_mean y x = F64.zero.
Proof.
  intros Hl Hm Hd Hq. unfold MEF_a. cbv zeta.
  assert (E : sum_tdim (MEF_num obs_da model_da) y x
              = sum_tdim (MEF_den obs_da o_mean) y x).
  { unfold sum_tdim, MEF_num, MEF_den. rewrite cell_zip_series, cell_broadcast.
    f_equal. apply map_combine_const; [|exact Hm].
    unfold cell. rewrite !length_map. exact Hl. }
  rewrite E, Hd, (mef_finite q q Hq). unfold F64.zero. f_equal.
  unfold Qcdiv. rewrite (Qcmult_inv_r q Hq). apply Qc_is_canon. reflexivity.
Qed.

Lemma X11_mean_model_witness :
  MEF_a obs24 model24_mean (mean_tdim obs24) 0 0 = F64.zero.
Proof.
  apply (X11_mean_model obs24 model24_mean (mean_tdim obs24) 0 0 (F64.qc 24 25)).
  - reflexivity.
  - repeat constructor; apply F64Facts.same_eq; vm_compute; reflexivity.
  - apply F64Facts.same_eq. vm_compute. reflexivity.
  - qc_neq.
Defined.
